(** * registration/core.py: probabilistic ICP building blocks

    A shallow embedding of the five routines of [registration/core.py]
    ([wknn_affinity], [fuse_affinities], [affinity_to_correspondences],
    [inlier_detection], [rigid_transformation]) and the properties the
    specification states about them.

    Numbers.  The routines compute on NumPy [float64] values.  The embedding
    is written once over an interface [Scalar] of the operations the code
    uses and instantiated twice: with the kernel's binary64 floats
    ([Float64.float64_scalar], executable, with NaN and the infinities as
    NumPy has them) and with the real numbers ([Exact.real_scalar], the
    exact arithmetic the algebraic statements of the specification are
    about).

    Arrays.  A 1-D array is a list, a 2-D array a list of rows with its
    column count ([ndarray]).  Arrays the code mutates in place are threaded
    as state; arrays handed over by reference live in a [world].

    Library calls.  [np.sum], [ndarray.dot] and [np.linalg.norm] accumulate
    from left to right, [np.exp] and [np.sqrt] are the interface's,
    [helpers.nearest_neighbours] and [np.linalg.eig] are parameters. *)

From Stdlib Require Import ZArith QArith Lia.
From Stdlib Require Floats Reals Lra.
From stdpp Require Import base option list gmap strings.

Set Default Proof Using "Type".

(** ** Exceptions and results *)

(** The exceptions a call can end with: those of Python and NumPy, and the
    two kinds of failure of the specification, [InvalidArgument] and
    [DegenerateState].  [Unmodelled] marks a dynamic typing the embedding
    does not follow (an argument that is not of the kind the routine is
    written for). *)
Inductive pyexn : Type :=
  | NameError (name : string)
  | IndexError
  | ValueError
  | TypeError
  | ZeroDivisionError
  | LinAlgError
  | InvalidArgument
  | DegenerateState
  | Unmodelled.

Inductive result (A : Type) : Type :=
  | Ok (a : A)
  | Raise (e : pyexn).
Arguments Ok {A} a.
Arguments Raise {A} e.

#[global] Instance result_ret : MRet result := λ A a, Ok a.
#[global] Instance result_bind : MBind result :=
  λ A B f m, match m with Ok a => f a | Raise e => Raise e end.
#[global] Instance result_fmap : FMap result :=
  λ A B f m, match m with Ok a => Ok (f a) | Raise e => Raise e end.

Definition of_option {A} (e : pyexn) (o : option A) : result A :=
  match o with Some a => Ok a | None => Raise e end.

Definition is_ok {A} (r : result A) : bool :=
  match r with Ok _ => true | Raise _ => false end.

(** A computation that may raise and that updates a state [S] in place: the
    state it leaves is returned also when it raises. *)
Definition Mut (S A : Type) : Type := S → result A * S.

#[global] Instance mut_ret {S} : MRet (Mut S) := λ A a s, (Ok a, s).
#[global] Instance mut_bind {S} : MBind (Mut S) :=
  λ A B f m s, match m s with
               | (Ok a, s') => f a s'
               | (Raise e, s') => (Raise e, s')
               end.

Definition lift {S A} (r : result A) : Mut S A := λ s, (r, s).

(** ** The arithmetic of the code *)

Declare Scope num_scope.
Delimit Scope num_scope with num.

(** What the code does with a number: decimal literals, the four
    operations, [np.sqrt], [np.exp], [abs] and the comparison [<]
    (Python's [a > b] is [b < a]). *)
Class Scalar (T : Type) : Type := {
  lit : Q → T;
  sadd : T → T → T;
  ssub : T → T → T;
  smul : T → T → T;
  sdiv : T → T → T;
  ssqrt : T → T;
  sexp : T → T;
  sabs : T → T;
  sltb : T → T → bool;
}.

Infix "+" := sadd : num_scope.
Infix "-" := ssub : num_scope.
Infix "*" := smul : num_scope.
Infix "/" := sdiv : num_scope.
Notation "x <? y" := (sltb x y) : num_scope.
Notation "x >? y" := (sltb y x) : num_scope.

(** ** Arrays *)

(** A 2-D array: its rows and its number of columns (kept apart, since an
    array of shape (0, c) has no row to read c from). *)
Record ndarray (A : Type) : Type := NdArray {
  ncols : nat;
  rows : list (list A);
}.
Arguments NdArray {A} _ _.
Arguments ncols {A} _.
Arguments rows {A} _.

Definition nrows {A} (a : ndarray A) : nat := length (rows a).

(** [a[i, :]] and [a[i, j]] for indices that are not negative. *)
Definition get_row {A} (a : ndarray A) (i : nat) : result (list A) :=
  of_option IndexError (rows a !! i).

Definition get2 {A} (a : ndarray A) (i j : nat) : result A :=
  r ← get_row a i; of_option IndexError (r !! j).

(** NumPy's reading of an integer index into an axis of length [n]:
    negative indices count from the end. *)
Definition np_index (n : nat) (idx : Z) : result nat :=
  if decide (0 ≤ idx < Z.of_nat n)%Z then Ok (Z.to_nat idx)
  else if decide (- Z.of_nat n ≤ idx < 0)%Z then Ok (Z.to_nat (idx + Z.of_nat n))
  else Raise IndexError.

(** The rule of broadcasting for one axis. *)
Definition bdim (n m : nat) : result nat :=
  if decide (n = m) then Ok n
  else if decide (n = 1) then Ok m
  else if decide (m = 1) then Ok n
  else Raise ValueError.

(** The position read on an axis of length [n] when the result's index is
    [i]: an axis of length 1 is repeated. *)
Definition bpos (n i : nat) : nat := if decide (n = 1) then 0 else i.

Section arrays.
Context {T : Type} `{!Scalar T}.
Local Open Scope num_scope.

Definition zero : T := lit 0.
Definition one : T := lit 1.

(** [np.sum] of a 1-D array: from left to right, starting at 0.0. *)
Definition np_sum (v : list T) : T := fold_left sadd v zero.

(** [np.zeros(n)], [np.zeros((n, m))], [np.identity(n)]. *)
Definition zeros1 (n : nat) : list T := replicate n zero.
Definition zeros2 (n m : nat) : ndarray T := NdArray m (replicate n (zeros1 m)).
Definition identity (n : nat) : ndarray T :=
  NdArray n (map (λ i, map (λ j, if decide (i = j) then one else zero) (seq 0 n)) (seq 0 n)).

(** Reads with a default, for positions the shape guarantees. *)
Definition at1 (v : list T) (i : nat) : T := nth i v zero.
Definition at2 (a : ndarray T) (i j : nat) : T := at1 (nth i (rows a) []) j.

Definition tabulate1 (n : nat) (f : nat → T) : list T := map f (seq 0 n).
Definition tabulate2 (n m : nat) (f : nat → nat → T) : ndarray T :=
  NdArray m (map (λ i, tabulate1 m (f i)) (seq 0 n)).

(** An elementwise operation of two 1-D arrays, with broadcasting. *)
Definition zip1 (f : T → T → T) (u v : list T) : result (list T) :=
  n ← bdim (length u) (length v);
  Ok (tabulate1 n (λ i, f (at1 u (bpos (length u) i)) (at1 v (bpos (length v) i)))).

(** An elementwise operation of two 2-D arrays, with broadcasting. *)
Definition zip2 (f : T → T → T) (a b : ndarray T) : result (ndarray T) :=
  n ← bdim (nrows a) (nrows b);
  m ← bdim (ncols a) (ncols b);
  Ok (tabulate2 n m (λ i j,
        f (at2 a (bpos (nrows a) i) (bpos (ncols a) j))
          (at2 b (bpos (nrows b) i) (bpos (ncols b) j)))).

(** An array and a scalar. *)
Definition map2d (f : T → T) (a : ndarray T) : ndarray T :=
  NdArray (ncols a) (map (map f) (rows a)).

(** [a.transpose()]. *)
Definition transpose (a : ndarray T) : ndarray T :=
  tabulate2 (ncols a) (nrows a) (λ i j, at2 a j i).

(** The column [a[:, j]]. *)
Definition column (a : ndarray T) (j : nat) : list T :=
  map (λ r, at1 r j) (rows a).

(** [u.dot(v)] of two 1-D arrays: the lengths must agree. *)
Definition dot (u v : list T) : result T :=
  if decide (length u = length v)
  then Ok (np_sum (zip_with smul u v))
  else Raise ValueError.

(** [a.dot(v)], a 2-D array times a 1-D array. *)
Definition matvec (a : ndarray T) (v : list T) : result (list T) :=
  if decide (ncols a = length v)
  then Ok (map (λ r, np_sum (zip_with smul r v)) (rows a))
  else Raise ValueError.

(** [a.dot(b)], the product of two 2-D arrays. *)
Definition matmul (a b : ndarray T) : result (ndarray T) :=
  if decide (ncols a = nrows b)
  then Ok (NdArray (ncols b)
             (map (λ r, tabulate1 (ncols b) (λ j, np_sum (zip_with smul r (column b j))))
                  (rows a)))
  else Raise ValueError.

(** [a / a.sum(axis=1, keepdims=True)]: every row divided by its sum. *)
Definition normalize_rows (a : ndarray T) : ndarray T :=
  NdArray (ncols a) (map (λ r, map (λ x, x / np_sum r) r) (rows a)).

(** [np.linalg.norm] of a 1-D array. *)
Definition norm (v : list T) : T := ssqrt (np_sum (map (λ x, x * x) v)).

(** [np.square]. *)
Definition square (x : T) : T := x * x.
End arrays.

(** ** [wknn_affinity] *)

Section wknn_affinity.
Context {T : Type} `{!Scalar T}.
Local Open Scope num_scope.

(** [helpers.nearest_neighbours(features1, features2, k)]: for every row
    of [features1] the distances to, and the indices of, its [k] nearest
    rows of [features2].  The module [helpers] is not part of the sources
    at hand; the routine is taken as a parameter. *)
Context (nearest_neighbours :
           ndarray T → ndarray T → Z → result (ndarray T * ndarray Z)).

(** Lines 61-62: the distance after its floor. *)
Definition floor_distance (distance : T) : T :=
  if distance <? lit 0.001 then lit 0.001 else distance.

(** Line 64: the divisor of the affinity. *)
Definition affinity_divisor (distance : T) : T :=
  floor_distance distance * floor_distance distance.

(** Lines 60-66: the affinity of one neighbour at distance [distance]. *)
Definition affinity_element (distance : T) : T :=
  let affinityElement := lit 1.0 / affinity_divisor distance in
  if affinityElement <? lit 0.0001 then lit 0.0001 else affinityElement.

(** Lines 57-70: the loop over the neighbours of element [i], from
    neighbour number [j] on, writing into row [i] of [affinity12]. *)
Fixpoint scatter_neighbours (distances : ndarray T) (i j : nat)
    (neighbours : list Z) (row : list T) : result (list T) :=
  match neighbours with
  | [] => Ok row
  | idx :: neighbours =>
      distance ← get2 distances i j;
      pos ← np_index (length row) idx;
      scatter_neighbours distances i (S j) neighbours
        (<[pos := affinity_element distance]> row)
  end.

(** Lines 55-70: row [i] of the matrix before it is normalised. *)
Definition affinity_row (numElements2 : nat) (distances : ndarray T)
    (neighbourIndices : ndarray Z) (i : nat) : result (list T) :=
  neighbours ← get_row neighbourIndices i;
  scatter_neighbours distances i 0 neighbours (zeros1 numElements2).

(** Lines 47-70: the matrix before it is normalised. *)
Definition raw_affinity (features1 features2 : ndarray T) (k : Z)
    : result (ndarray T) :=
  let numElements1 := nrows features1 in
  let numElements2 := nrows features2 in
  '(distances, neighbourIndices) ← nearest_neighbours features1 features2 k;
  affinityRows ← mapM (affinity_row numElements2 distances neighbourIndices)
                      (seq 0 numElements1);
  Ok (NdArray numElements2 affinityRows).

Definition wknn_affinity (features1 features2 : ndarray T) (k : Z)
    : result (ndarray T) :=
  affinity12 ← raw_affinity features1 features2 k;
  Ok (normalize_rows affinity12).
End wknn_affinity.


(** An oracle that answers with the arrays [distances] and
    [neighbourIndices], and one that refuses every query. *)
Definition fixed_oracle {T} (distances : ndarray T) (neighbourIndices : ndarray Z)
    : ndarray T → ndarray T → Z → result (ndarray T * ndarray Z) :=
  λ _ _ _, Ok (distances, neighbourIndices).

Definition refusing_oracle {T}
    : ndarray T → ndarray T → Z → result (ndarray T * ndarray Z) :=
  λ _ _ _, Raise InvalidArgument.

(** ** [affinity_to_correspondences] *)

Section affinity_to_correspondences.
Context {T : Type} `{!Scalar T}.
Local Open Scope num_scope.

(** Lines 127-130: the value a blended flag is rounded to. *)
Definition round_flag (flagRoundingLimit flag : T) : T :=
  if flag >? flagRoundingLimit then lit 1.0 else lit 0.0.

(** Lines 126-130: the loop over [enumerate(correspondingFlags)], from
    position [i] on, overwriting the array it enumerates.  The iterator of
    a NumPy array reads position [i] of the array when it gets there;
    [fuel] bounds the number of steps by the length of the array. *)
Fixpoint round_flags_from (flagRoundingLimit : T) (fuel i : nat)
    (correspondingFlags : list T) : list T :=
  match fuel with
  | O => correspondingFlags
  | S fuel =>
      match correspondingFlags !! i with
      | None => correspondingFlags
      | Some flag =>
          round_flags_from flagRoundingLimit fuel (S i)
            (<[i := round_flag flagRoundingLimit flag]> correspondingFlags)
      end
  end.

Definition round_flags (flagRoundingLimit : T) (correspondingFlags : list T)
    : list T :=
  round_flags_from flagRoundingLimit (length correspondingFlags) 0
    correspondingFlags.

Definition affinity_to_correspondences (features2 : ndarray T)
    (flags2 : list T) (affinity : ndarray T) (flagRoundingLimit : T)
    : result (ndarray T * list T) :=
  correspondingFeatures ← matmul affinity features2;
  correspondingFlags ← matvec affinity flags2;
  Ok (correspondingFeatures, round_flags flagRoundingLimit correspondingFlags).

(** The default of the parameter [flagRoundingLimit]. *)
Definition default_flagRoundingLimit : T := lit 0.9.
End affinity_to_correspondences.

(** ** [inlier_detection] *)

Section inlier_detection.
Context {T : Type} `{!Scalar T}.
Local Open Scope num_scope.

(** The state is the array [inlierProbability], which the routine updates
    in place.  The arrays it only reads are taken to be other objects. *)
Local Abbreviation M := (Mut (list T)).

(** [inlierProbability[i]] and [inlierProbability[i] = x], [i] not
    negative. *)
Definition read_probability (i : nat) : M T :=
  λ p, (of_option IndexError (p !! i), p).
Definition write_probability (i : nat) (x : T) : M unit :=
  λ p, if decide (i < length p) then (Ok (), <[i := x]> p)
       else (Raise IndexError, p).

(** Lines 158-160: the loop over [enumerate(correspondingFlags)], from
    position [i] on. *)
Fixpoint flag_gate (i : nat) (correspondingFlags : list T) : M unit :=
  match correspondingFlags with
  | [] => mret ()
  | flag :: correspondingFlags =>
      (if flag <? lit 0.5 then write_probability i (lit 0.0) else mret ());;
      flag_gate (S i) correspondingFlags
  end.

(** Lines 169 and 177: the residual of element [i]. *)
Definition residual (features correspondingFeatures : ndarray T) (i : nat)
    : result T :=
  correspondingFeature ← get_row correspondingFeatures i;
  feature ← get_row features i;
  difference ← zip1 ssub correspondingFeature feature;
  Ok (norm difference).

(** Lines 168-171: the two sums, over the elements [elements]. *)
Fixpoint sigma_sums (features correspondingFeatures : ndarray T)
    (elements : list nat) (sigmaNumerator sigmaDenominator : T) : M (T * T) :=
  match elements with
  | [] => mret (sigmaNumerator, sigmaDenominator)
  | i :: elements =>
      distance ← lift (residual features correspondingFeatures i);
      p_i ← read_probability i;
      let sigmaNumerator := sigmaNumerator + p_i * distance * distance in
      p_i ← read_probability i;
      let sigmaDenominator := sigmaDenominator + p_i in
      sigma_sums features correspondingFeatures elements
        sigmaNumerator sigmaDenominator
  end.

(** Line 174, and the factor of line 178: the density of the Gaussian of
    deviation [sigmaa] at [x] deviations from its mean is
    [gaussian_scale sigmaa * exp (-0.5 * x * x)]. *)
Definition gaussian_scale (sigmaa : T) : T :=
  lit 1.0 / (ssqrt (lit 2 * lit 3.14159) * sigmaa).

Definition outlier_level (sigmaa kappaa : T) : T :=
  gaussian_scale sigmaa * sexp (lit (-0.5) * kappaa * kappaa).

(** Line 178. *)
Definition gaussian_density (sigmaa distance : T) : T :=
  gaussian_scale sigmaa * sexp (lit (-0.5) * square (distance / sigmaa)).

(** Lines 176-179: the loop over the elements [elements]. *)
Fixpoint distance_pass (features correspondingFeatures : ndarray T)
    (sigmaa lambdaa : T) (elements : list nat) : M unit :=
  match elements with
  | [] => mret ()
  | i :: elements =>
      distance ← lift (residual features correspondingFeatures i);
      let probability := gaussian_density sigmaa distance in
      write_probability i (probability / (probability + lambdaa));;
      distance_pass features correspondingFeatures sigmaa lambdaa elements
  end.

(** [row[3:6]]: a slice is never out of range. *)
Definition slice_3_6 (row : list T) : list T := take 3 (drop 3 row).

(** Lines 183-189: the factor the normals of element [i] contribute. *)
Definition normal_agreement (features correspondingFeatures : ndarray T)
    (i : nat) : result T :=
  feature ← get_row features i;
  let normal := slice_3_6 feature in
  correspondingFeature ← get_row correspondingFeatures i;
  let correspondingNormal := slice_3_6 correspondingFeature in
  dotProduct ← dot normal correspondingNormal;
  Ok (dotProduct / lit 2.0 + lit 0.5).

(** Lines 182-190: the loop over the elements [elements]. *)
Fixpoint normal_pass (features correspondingFeatures : ndarray T)
    (elements : list nat) : M unit :=
  match elements with
  | [] => mret ()
  | i :: elements =>
      probability ← lift (normal_agreement features correspondingFeatures i);
      p_i ← read_probability i;
      write_probability i (p_i * probability);;
      normal_pass features correspondingFeatures elements
  end.

(** The deviation the routine estimates (line 173) from the two sums. *)
Definition sigma_of (sums : T * T) : T := ssqrt (sums.1 / sums.2).

(** The routine.  With no element the two sums are still the Python
    floats [0.0] and their quotient raises; from one element on they are
    [float64] values and the quotient is the arithmetic's. *)
Definition inlier_detection (features correspondingFeatures : ndarray T)
    (correspondingFlags : list T) (kappaa : T) : M unit :=
  let numElements := nrows features in
  flag_gate 0 correspondingFlags;;
  sums ← sigma_sums features correspondingFeatures (seq 0 numElements) zero zero;
  (if decide (numElements = 0) then lift (Raise ZeroDivisionError) else mret ());;
  let sigmaa := sigma_of sums in
  let lambdaa := outlier_level sigmaa kappaa in
  distance_pass features correspondingFeatures sigmaa lambdaa (seq 0 numElements);;
  normal_pass features correspondingFeatures (seq 0 numElements).

(** The deviation a call estimates: that of the two sums taken after the
    flags were applied. *)
Definition estimated_sigma (features correspondingFeatures : ndarray T)
    (correspondingFlags : list T) (inlierProbability : list T) : result T :=
  let run :=
    flag_gate 0 correspondingFlags;;
    sigma_sums features correspondingFeatures (seq 0 (nrows features)) zero zero in
  sigma_of <$> fst (run inlierProbability).

(** The value an element at residual [distance], whose normals have the
    dot product [dotProduct], ends with when the deviation is [sigmaa]:
    the responsibility of the Gaussian, times the agreement of the
    normals. *)
Definition final_probability (sigmaa kappaa distance dotProduct : T) : T :=
  gaussian_density sigmaa distance
  / (gaussian_density sigmaa distance + outlier_level sigmaa kappaa)
  * (dotProduct / lit 2.0 + lit 0.5).

(** The default of the parameter [kappaa]. *)
Definition default_kappaa : T := lit 3.
End inlier_detection.

(** ** Objects, references and names *)

Definition loc : Type := nat.

Section runtime.
Context {T : Type} `{!Scalar T}.

(** The array objects of a run. *)
Inductive pyobj : Type :=
  | Arr1 (v : list T)
  | Arr2 (a : ndarray T).

(** The values a name can be bound to: arrays are held by reference;
    [PObject] is any other object (a module, a function). *)
Inductive pyval : Type :=
  | PNone
  | PBool (b : bool)
  | PInt (z : Z)
  | PFloat (x : T)
  | PRef (l : loc)
  | PObject.

(** What a run can change: the array objects and the standard output
    (the 1-D arrays printed so far, latest first). *)
Record world : Type := World {
  mem : gmap loc pyobj;
  stdout : list (list T);
}.

Local Abbreviation M := (Mut world).

(** A new array object. *)
Definition alloc (o : pyobj) : M loc :=
  λ w, let l := fresh (dom (mem w)) in
       (Ok l, World (<[l := o]> (mem w)) (stdout w)).

Definition print (v : list T) : M unit :=
  λ w, (Ok (), World (mem w) (v :: stdout w)).

(** The 2-D array a value refers to. *)
Definition deref2 (v : pyval) : M (ndarray T) :=
  λ w, match v with
       | PRef l => match mem w !! l with
                   | Some (Arr2 a) => (Ok a, w)
                   | _ => (Raise Unmodelled, w)
                   end
       | _ => (Raise Unmodelled, w)
       end.

(** [v.copy()] for [v] an array. *)
Definition copy (v : pyval) : M loc :=
  λ w, match v with
       | PRef l => match mem w !! l with
                   | Some o => alloc o w
                   | None => (Raise Unmodelled, w)
                   end
       | _ => (Raise Unmodelled, w)
       end.

(** [v[i]] for [v] a 1-D array and [i] not negative. *)
Definition subscript (v : pyval) (i : nat) : M T :=
  λ w, match v with
       | PRef l => match mem w !! l with
                   | Some (Arr1 u) => (of_option IndexError (u !! i), w)
                   | _ => (Raise Unmodelled, w)
                   end
       | _ => (Raise TypeError, w)
       end.

(** [v[:, j]] for [v] a 2-D array and [j] not negative. *)
Definition subscript_column (v : pyval) (j : nat) : M (list T) :=
  λ w, match v with
       | PRef l => match mem w !! l with
                   | Some (Arr2 a) =>
                       if decide (j < ncols a) then (Ok (column a j), w)
                       else (Raise IndexError, w)
                   | Some (Arr1 _) => (Raise IndexError, w)
                   | None => (Raise Unmodelled, w)
                   end
       | _ => (Raise TypeError, w)
       end.

(** [v[:, j] = x] for [v] a 2-D array, [j] not negative and [x] a 1-D
    array, which is broadcast to the column. *)
Definition assign_column (v : pyval) (j : nat) (x : list T) : M unit :=
  λ w, match v with
       | PRef l => match mem w !! l with
                   | Some (Arr2 a) =>
                       if decide (j < ncols a) then
                         if decide (length x = nrows a ∨ length x = 1) then
                           let a' := NdArray (ncols a)
                                       (imap (λ i r, <[j := at1 x (bpos (length x) i)]> r)
                                             (rows a)) in
                           (Ok (), World (<[l := Arr2 a']> (mem w)) (stdout w))
                         else (Raise ValueError, w)
                       else (Raise IndexError, w)
                   | Some (Arr1 _) => (Raise IndexError, w)
                   | None => (Raise Unmodelled, w)
                   end
       | _ => (Raise TypeError, w)
       end.

(** [range(v)]. *)
Definition range (v : pyval) : result (list nat) :=
  match v with
  | PInt z => Ok (seq 0 (Z.to_nat z))
  | PBool b => Ok (seq 0 (if b then 1 else 0))
  | _ => Raise TypeError
  end.

(** The truth value of [v] in [if v:]. *)
Definition truth (v : pyval) : result bool :=
  match v with
  | PNone => Ok false
  | PBool b => Ok b
  | PInt z => Ok (bool_decide (z ≠ 0%Z))
  | PObject => Ok true
  | PFloat _ | PRef _ => Raise Unmodelled
  end.

(** The value of the name [x] in a function whose local names are bound
    by [locals], in a module whose global names are bound by [globals]. *)
Definition lookup_name (locals globals : gmap string pyval) (x : string)
    : result pyval :=
  match locals !! x with
  | Some v => Ok v
  | None => of_option (NameError x) (globals !! x)
  end.
End runtime.

Arguments pyobj T : clear implicits.
Arguments pyval T : clear implicits.
Arguments world T : clear implicits.

(** ** [fuse_affinities] *)

Section fuse_affinities.
Context {T : Type} `{!Scalar T}.
Local Open Scope num_scope.
Local Abbreviation M := (Mut (world T)).

(** Lines 94-96: the matrix the routine computes. *)
Definition fused_affinity (affinity12 affinity21 : ndarray T)
    : result (ndarray T) :=
  affinityFused ← zip2 sadd affinity12 (transpose affinity21);
  Ok (normalize_rows affinityFused).

(** The routine.  Its three parameters are local names bound to the
    caller's objects; lines 94 and 96 bind the local name [affinityFused]
    to a new array each, and line 98 returns [True]. *)
Definition fuse_affinities (affinity12 affinity21 affinityFused : pyval T)
    : M (pyval T) :=
  a12 ← deref2 affinity12;
  a21 ← deref2 affinity21;
  sum ← lift (zip2 sadd a12 (transpose a21));
  l ← alloc (Arr2 sum);
  let affinityFused : pyval T := PRef l in
  fused ← deref2 affinityFused;
  l ← alloc (Arr2 (normalize_rows fused));
  let affinityFused : pyval T := PRef l in
  mret (PBool true).
End fuse_affinities.

(** ** [rigid_transformation] *)

Section rigid_transformation.
Context {T : Type} `{!Scalar T}.
Local Open Scope num_scope.
Local Abbreviation M := (Mut (world T)).

(** [np.linalg.eig]: the eigenvalues of a square matrix and the matrix
    whose columns are its eigenvectors, or [LinAlgError]. *)
Context (eig : ndarray T → result (list T * ndarray T)).

(** The global names of the module when the routine is called.  The names
    [np], [range], [abs] and [print] are taken to be bound as the imports
    and the builtins bind them. *)
Context (globals : gmap string (pyval T)).

(** A scalar times an array, [np.outer], [np.trace], [np.ones]. *)
Definition scale1 (c : T) (v : list T) : list T := map (smul c) v.
Definition scale2 (c : T) (a : ndarray T) : ndarray T := map2d (smul c) a.
Definition outer (u v : list T) : ndarray T :=
  NdArray (length v) (map (λ x, map (smul x) v) u).
Definition trace (a : ndarray T) : T :=
  np_sum (map (λ i, at2 a i i) (seq 0 (min (nrows a) (ncols a)))).
Definition ones1 (n : nat) : list T := replicate n one.

(** The names the body reads and never assigns. *)
Definition free_names : list string :=
  ["numFloatingVertices"; "floatingWeights"; "floatingPositions";
   "correspondingPositions"; "adjustScale"]%string.

(** A computation that, when it ends well, returns [None]. *)
Definition returns_None (m : M (pyval T)) : Prop :=
  ∀ w v w', m w = (Ok v, w') → v = PNone.

(** The names of the parameters. *)
Definition parameters : list string :=
  ["features"; "correspondingFeatures"; "weights"]%string.

(** The local names at the entry of the routine. *)
Definition entry_locals (features correspondingFeatures weights : pyval T)
    : gmap string (pyval T) :=
  list_to_map (zip parameters [features; correspondingFeatures; weights]).

Section body.
(** The local names bound by the call. *)
Context (locals : gmap string (pyval T)).

(** A name the body reads and never assigns. *)
Definition name (x : string) : M (pyval T) :=
  lift (lookup_name locals globals x).

(** Lines 215-218, over the indices [indices]. *)
Fixpoint centroid_loop (indices : list nat)
    (floatingCentroid correspondingCentroid : list T) (weightSum : T)
    : M (list T * list T * T) :=
  match indices with
  | [] => mret (floatingCentroid, correspondingCentroid, weightSum)
  | i :: indices =>
      floatingWeights ← name "floatingWeights";
      w ← subscript floatingWeights i;
      floatingPositions ← name "floatingPositions";
      x ← subscript_column floatingPositions i;
      floatingCentroid ← lift (zip1 sadd floatingCentroid (scale1 w x));
      floatingWeights ← name "floatingWeights";
      w ← subscript floatingWeights i;
      correspondingPositions ← name "correspondingPositions";
      y ← subscript_column correspondingPositions i;
      correspondingCentroid ← lift (zip1 sadd correspondingCentroid (scale1 w y));
      floatingWeights ← name "floatingWeights";
      w ← subscript floatingWeights i;
      centroid_loop indices floatingCentroid correspondingCentroid (weightSum + w)
  end.

(** Lines 224-226, over the indices [indices]. *)
Fixpoint cross_variance_loop (indices : list nat)
    (crossVarianceMatrix : ndarray T) : M (ndarray T) :=
  match indices with
  | [] => mret crossVarianceMatrix
  | i :: indices =>
      floatingWeights ← name "floatingWeights";
      w ← subscript floatingWeights i;
      floatingPositions ← name "floatingPositions";
      x ← subscript_column floatingPositions i;
      correspondingPositions ← name "correspondingPositions";
      y ← subscript_column correspondingPositions i;
      crossVarianceMatrix ←
        lift (zip2 sadd crossVarianceMatrix (scale2 w (outer x y)));
      cross_variance_loop indices crossVarianceMatrix
  end.

(** Lines 237-242: the matrix [Q]. *)
Definition quaternion_matrix (crossVarianceMatrix : ndarray T)
    (delta : list T) : result (ndarray T) :=
  let tr := trace crossVarianceMatrix in
  s ← zip2 sadd crossVarianceMatrix (transpose crossVarianceMatrix);
  block ← zip2 ssub s (map2d (λ x, x * tr) (identity 3));
  Ok (tabulate2 4 4 (λ i j,
        match i, j with
        | 0, 0 => tr
        | S i', 0 => at1 delta i'
        | 0, S j' => at1 delta j'
        | S i', S j' => at2 block i' j'
        end)).

(** Lines 246-251: the index of the eigenvalue kept, enumerating
    [eigenValues] from position [i] on. *)
Fixpoint dominant (i : nat) (eigenValues : list T) (maxVal : T)
    (indexMaxVal : nat) : nat :=
  match eigenValues with
  | [] => indexMaxVal
  | eigenValue :: eigenValues =>
      if sabs eigenValue >? maxVal
      then dominant (S i) eigenValues (sabs eigenValue) i
      else dominant (S i) eigenValues maxVal indexMaxVal
  end.

(** Lines 255-266: the rotation matrix of the quaternion [rotQ]. *)
Definition rotation_of (rotQ : list T) : result (ndarray T) :=
  q0 ← of_option IndexError (rotQ !! 0);
  q1 ← of_option IndexError (rotQ !! 1);
  q2 ← of_option IndexError (rotQ !! 2);
  q3 ← of_option IndexError (rotQ !! 3);
  Ok (NdArray 3
        [ [ square q0 + square q1 - square q2 - square q3;
            lit 2.0 * (q1 * q2 - q0 * q3);
            lit 2.0 * (q1 * q3 + q0 * q2) ];
          [ lit 2.0 * (q1 * q2 + q0 * q3);
            square q0 + square q2 - square q1 - square q3;
            lit 2.0 * (q2 * q3 - q0 * q1) ];
          [ lit 2.0 * (q1 * q3 - q0 * q2);
            lit 2.0 * (q2 * q3 + q0 * q1);
            square q0 + square q3 - square q1 - square q2 ] ]).

(** Lines 272-276, over the indices [indices]. *)
Fixpoint scale_loop (rotMatTemp : ndarray T)
    (floatingCentroid correspondingCentroid : list T)
    (indices : list nat) (numerator denominator : T) : M (T * T) :=
  match indices with
  | [] => mret (numerator, denominator)
  | i :: indices =>
      floatingPositions ← name "floatingPositions";
      x ← subscript_column floatingPositions i;
      centered ← lift (zip1 ssub x floatingCentroid);
      centeredFloatingPosition ← lift (matvec rotMatTemp centered);
      correspondingPositions ← name "correspondingPositions";
      y ← subscript_column correspondingPositions i;
      centeredCorrespondingPosition ← lift (zip1 ssub y correspondingCentroid);
      floatingWeights ← name "floatingWeights";
      w ← subscript floatingWeights i;
      d ← lift (dot centeredCorrespondingPosition centeredFloatingPosition);
      let numerator := numerator + w * d in
      floatingWeights ← name "floatingWeights";
      w ← subscript floatingWeights i;
      d ← lift (dot centeredFloatingPosition centeredFloatingPosition);
      let denominator := denominator + w * d in
      scale_loop rotMatTemp floatingCentroid correspondingCentroid
        indices numerator denominator
  end.

(** Lines 268-277.  With no vertex the two sums are still the Python
    floats [0.0] and their quotient raises. *)
Definition scale_factor (rotMatTemp : ndarray T)
    (floatingCentroid correspondingCentroid : list T) : M T :=
  adjustScale ← name "adjustScale";
  adjust ← lift (truth adjustScale);
  if adjust : bool then
    numFloatingVertices ← name "numFloatingVertices";
    indices ← lift (range numFloatingVertices);
    '(numerator, denominator) ←
      scale_loop rotMatTemp floatingCentroid correspondingCentroid
        indices zero zero;
    if decide (indices = []) then lift (Raise ZeroDivisionError)
    else mret (numerator / denominator)
  else mret (lit 1.0).

(** Lines 282-286: the matrix applied to the vertices, for a rotation of
    shape (3, 3) and a translation of length 3, which the body makes
    sure of. *)
Definition transformation_matrix (scaleFactor : T)
    (rotMatTemp : ndarray T) (translation : list T) : result (ndarray T) :=
  let translationMatrix :=
    tabulate2 4 4 (λ i j,
      if decide (i < 3 ∧ j = 3) then at1 translation i
      else at2 (identity 4) i j) in
  let scaled := scale2 scaleFactor rotMatTemp in
  let rotationMatrix :=
    tabulate2 4 4 (λ i j,
      if decide (i < 3 ∧ j < 3) then at2 scaled i j
      else at2 (identity 4) i j) in
  matmul rotationMatrix translationMatrix.

(** [v[0:3] = x] for [v] of length 4: [x] is broadcast to 3 entries. *)
Definition assign_0_3 (v x : list T) : result (list T) :=
  if decide (length x = 3 ∨ length x = 1)
  then Ok (tabulate1 3 (λ i, at1 x (bpos (length x) i)) ++ drop 3 v)
  else Raise ValueError.

(** Lines 292-296, over the indices [indices]. *)
Fixpoint apply_loop (transformationMatrix : ndarray T)
    (indices : list nat) (floatingPosition : list T) : M unit :=
  match indices with
  | [] => mret ()
  | i :: indices =>
      floatingPositions ← name "floatingPositions";
      x ← subscript_column floatingPositions i;
      floatingPosition ← lift (assign_0_3 floatingPosition x);
      print floatingPosition;;
      moved ← lift (matvec transformationMatrix floatingPosition);
      floatingPositions ← name "floatingPositions";
      assign_column floatingPositions i (take 3 moved);;
      floatingPositions ← name "floatingPositions";
      x ← subscript_column floatingPositions i;
      print x;;
      apply_loop transformationMatrix indices floatingPosition
  end.

(** Lines 212-296.  The body ends without a [return]: the call yields
    [None]. *)
Definition rigid_transformation_body : M (pyval T) :=
  numFloatingVertices ← name "numFloatingVertices";
  indices ← lift (range numFloatingVertices);
  '(floatingCentroid, correspondingCentroid, weightSum) ←
    centroid_loop indices (zeros1 3) (zeros1 3) zero;
  let floatingCentroid := map (λ x, x / weightSum) floatingCentroid in
  let correspondingCentroid := map (λ x, x / weightSum) correspondingCentroid in
  numFloatingVertices ← name "numFloatingVertices";
  indices ← lift (range numFloatingVertices);
  crossVarianceMatrix ← cross_variance_loop indices (zeros2 3 3);
  crossVarianceMatrix ←
    lift (zip2 ssub (map2d (λ x, x / weightSum) crossVarianceMatrix)
                    (outer floatingCentroid correspondingCentroid));
  antiSymmetricMatrix ←
    lift (zip2 ssub crossVarianceMatrix (transpose crossVarianceMatrix));
  let delta := [ at2 antiSymmetricMatrix 1 2;
                 at2 antiSymmetricMatrix 2 0;
                 at2 antiSymmetricMatrix 0 1 ] in
  Q ← lift (quaternion_matrix crossVarianceMatrix delta);
  '(eigenValues, eigenVectors) ← lift (eig Q);
  let indexMaxVal := dominant 0 eigenValues zero 0 in
  rotQ ← lift (if decide (indexMaxVal < ncols eigenVectors)
               then Ok (column eigenVectors indexMaxVal)
               else Raise IndexError);
  rotMatTemp ← lift (rotation_of rotQ);
  scaleFactor ← scale_factor rotMatTemp floatingCentroid correspondingCentroid;
  rotated ← lift (matvec rotMatTemp floatingCentroid);
  translation ← lift (zip1 ssub correspondingCentroid (scale1 scaleFactor rotated));
  transformationMatrix ←
    lift (transformation_matrix scaleFactor rotMatTemp translation);
  floatingPositions ← name "floatingPositions";
  oldFloatingPositions ← copy floatingPositions;
  numFloatingVertices ← name "numFloatingVertices";
  indices ← lift (range numFloatingVertices);
  apply_loop transformationMatrix indices (ones1 4);;
  mret PNone.
End body.

Definition rigid_transformation (features correspondingFeatures weights : pyval T)
    : M (pyval T) :=
  rigid_transformation_body
    (entry_locals features correspondingFeatures weights).
End rigid_transformation.

(** ** The two arithmetics *)

(** NumPy's [float64]: IEEE 754 binary64, the kernel's primitive floats.
    [np.exp] is the C library's [exp]; it is a parameter of the instance. *)
Module Float64.
Import Floats.
#[local] Set Warnings "-inexact-float".

Class Libm : Type := { np_exp : float → float }.

(** An integer as a float (exact up to 2^53 in absolute value). *)
Definition of_Z (z : Z) : float :=
  match z with
  | Z0 => 0%float
  | Zpos _ => PrimFloat.of_uint63 (Uint63.of_Z z)
  | Zneg p => PrimFloat.opp (PrimFloat.of_uint63 (Uint63.of_Z (Zpos p)))
  end.

(** A decimal literal [n/d] with [n] and [d] below 2^53: the float nearest
    to it is the correctly rounded quotient of the two integers. *)
Definition of_Q (q : Q) : float :=
  PrimFloat.div (of_Z (Qnum q)) (of_Z (Zpos (Qden q))).

#[global] Instance float64_scalar {libm : Libm} : Scalar float := {|
  lit := of_Q;
  sadd := PrimFloat.add;
  ssub := PrimFloat.sub;
  smul := PrimFloat.mul;
  sdiv := PrimFloat.div;
  ssqrt := PrimFloat.sqrt;
  sexp := np_exp;
  sabs := PrimFloat.abs;
  sltb := PrimFloat.ltb;
|}.

(** The values of the C library's [exp] at the three arguments the worked
    examples reach with the default [kappaa = 3]. *)
Definition exp_at_minus_4_5 : float := 0.011108996538242306%float.
Definition exp_at_minus_0_5 : float := 0.6065306597126334%float.
Definition exp_at_zero : float := 1%float.

(** A table of these values, for running the examples. *)
Definition sample_libm : Libm := {|
  np_exp x :=
    if PrimFloat.eqb x (-4.5)%float then exp_at_minus_4_5
    else if PrimFloat.eqb x (-0.5)%float then exp_at_minus_0_5
    else exp_at_zero
|}.

Definition sample_scalar : Scalar float := float64_scalar (libm := sample_libm).

(** One source point, which coincides with the first of two target
    points, and the answer of the oracle for [k = 2]. *)
Definition coincident_source : ndarray float := NdArray 2 [[0; 0]]%float.
Definition coincident_target : ndarray float := NdArray 2 [[0; 0]; [1; 0]]%float.
Definition coincident_distances : ndarray float := NdArray 2 [[0; 1]]%float.
Definition coincident_indices : ndarray Z := NdArray 2 [[0; 1]]%Z.

(** Two target elements, the first flagged valid, and an affinity that
    blends their flags to 0.9 and to 0.95. *)
Definition blend_features : ndarray float := NdArray 1 [[1]; [2]]%float.
Definition blend_flags : list float := [1; 0]%float.
Definition blend_affinity : ndarray float :=
  NdArray 2 [[0.9; 0.1]; [0.95; 0.05]]%float.

(** Two elements at residual 1 whose normals agree. *)
Definition gate_features : ndarray float :=
  NdArray 6 [[0; 0; 0; 0; 0; 1]; [0; 0; 0; 0; 0; 1]]%float.
Definition gate_corresponding : ndarray float :=
  NdArray 6 [[1; 0; 0; 0; 0; 1]; [1; 0; 0; 0; 0; 1]]%float.

(** One element. *)
Definition lone_feature : ndarray float := NdArray 6 [[0; 0; 0; 0; 0; 1]]%float.

(** Two affinities of shape (2, 2), and the array handed over as
    [affinityFused]. *)
Definition fuse_a12 : ndarray float := NdArray 2 [[1; 0]; [0.5; 0.5]]%float.
Definition fuse_a21 : ndarray float := NdArray 2 [[1; 0]; [0; 1]]%float.
Definition fuse_out : ndarray float := NdArray 2 [[0; 0]; [0; 0]]%float.
Definition fuse_world : world float :=
  World (list_to_map [(0, Arr2 fuse_a12); (1, Arr2 fuse_a21); (2, Arr2 fuse_out)]) [].

(** The global names the module binds itself. *)
Definition module_globals : gmap string (pyval float) :=
  list_to_map ((λ x, (x, PObject)) <$>
    ["sys"; "np"; "linalg"; "spatial"; "helpers"; "wknn_affinity";
     "fuse_affinities"; "affinity_to_correspondences"; "inlier_detection";
     "rigid_transformation"]%string).

(** The global names of a script that binds the names the body of
    [rigid_transformation] reads: three vertices, the corresponding
    positions one unit further along the first axis. *)
Definition script_globals : gmap string (pyval float) :=
  list_to_map
    [("numFloatingVertices", PInt 3); ("floatingPositions", PRef 0);
     ("correspondingPositions", PRef 1); ("floatingWeights", PRef 2);
     ("adjustScale", PBool false)]%string ∪ module_globals.

Definition script_world : world float :=
  World (list_to_map
           [(0, Arr2 (NdArray 3 [[1; 0; 0]; [0; 1; 0]; [0; 0; 1]]%float));
            (1, Arr2 (NdArray 3 [[2; 1; 1]; [0; 1; 0]; [0; 0; 1]]%float));
            (2, Arr1 [1; 1; 1]%float)]) [].

(** An eigensolver that answers with the identity quaternion. *)
Definition identity_eig (Q : ndarray float)
    : result (list float * ndarray float) :=
  Ok ([1; 0; 0; 0]%float, identity (Scalar0 := sample_scalar) 4).

(** A float that is a zero or NaN. *)
Definition zero_or_nan (x : float) : Prop :=
  match Prim2SF x with
  | S754_zero _ | S754_nan => True
  | _ => False
  end.

(** The half turn about the third axis. *)
Definition half_turn : ndarray float :=
  NdArray 3 [[-1; 0; 0]; [0; -1; 0]; [0; 0; 1]]%float.
End Float64.

(** Exact arithmetic: the real numbers.  Division by zero and the square
    root of a negative number are the library's total functions; the
    statements made in this arithmetic keep away from both. *)
Module Exact.
Import Reals.

Definition real_scalar : Scalar R := {|
  lit := Q2R;
  sadd := Rplus;
  ssub := Rminus;
  smul := Rmult;
  sdiv := Rdiv;
  ssqrt := R_sqrt.sqrt;
  sexp := exp;
  sabs := Rabs;
  sltb := λ x y, if Rlt_dec x y then true else false;
|}.

(** One source point, which coincides with the first of two target
    points, and the answer of the oracle for [k = 2]. *)
Definition near_source : ndarray R := NdArray 1 [[0%R]].
Definition near_target : ndarray R := NdArray 1 [[0%R]; [1%R]].
Definition near_indices : ndarray Z := NdArray 2 [[0; 1]]%Z.
End Exact.

(** ** Shapes, frames and output *)

(** Two lengths of an axis that NumPy's broadcasting accepts together. *)
Definition broadcastable (n m : nat) : Prop := n = m ∨ n = 1 ∨ m = 1.

Section frames.
Context {T : Type} `{!Scalar T}.

(** A computation that leaves the array objects [keep] as they are,
    however it ends. *)
Definition untouched {A} (keep : loc → Prop) (m : Mut (world T) A) : Prop :=
  ∀ w r w', m w = (r, w') →
    ∀ l o, keep l → mem w !! l = Some o → mem w' !! l = Some o.
End frames.

Section output.
Context {T : Type} `{!Scalar T}.

(** A computation that, when it ends well, has printed [k] arrays. *)
Definition prints {A} (k : nat) (m : Mut (world T) A) : Prop :=
  ∀ w a w', m w = (Ok a, w') →
    ∃ out, stdout w' = out ++ stdout w ∧ length out = k.
End output.

(** ** Further samples *)

Module Float64Samples.
Import Floats.

(** The 4 x 4 matrix of NaN. *)
Definition nan_matrix : ndarray float :=
  NdArray 4 (replicate 4 (replicate 4 nan)).
End Float64Samples.

Module ExactSamples.
Import Reals.
Local Open Scope R_scope.

(** Two elements of one component, at the residuals 1 and 2. *)
Definition pair_features : ndarray R := NdArray 1 [[0]; [0]].
Definition pair_corresponding : ndarray R := NdArray 1 [[1]; [2]].

(** Four eigenvalues: the largest in absolute value is negative, and its
    absolute value is met again later. *)
Definition mixed_eigenvalues : list R := [1; -3; 2; 3].
End ExactSamples.

(** * Properties *)

(** ** Results *)

Lemma bind_Ok {A B} (m : result A) (f : A → result B) b :
  m ≫= f = Ok b → ∃ a, m = Ok a ∧ f a = Ok b.
Proof. destruct m as [a|e]; simpl; [eauto|done]. Qed.

Lemma bind_Raise {A B} (m : result A) (f : A → result B) e :
  m ≫= f = Raise e → m = Raise e ∨ ∃ a, m = Ok a ∧ f a = Raise e.
Proof. destruct m as [a|e']; simpl; [eauto|intros [= ->]; by left]. Qed.

Lemma of_option_Raise {A} e (o : option A) e' :
  of_option e o = Raise e' → e' = e.
Proof. destruct o; simpl; congruence. Qed.

Lemma of_option_Ok {A} e (o : option A) a :
  of_option e o = Ok a ↔ o = Some a.
Proof. destruct o; simpl; split; congruence. Qed.

Lemma mapM_Ok {A B} (f : A → result B) (l : list A) (k : list B) :
  mapM f l = Ok k ↔ Forall2 (λ x y, f x = Ok y) l k.
Proof.
  revert k. induction l as [|x l IH]; intros k; simpl.
  - split; [intros [= <-]; constructor | by inversion 1].
  - split.
    + intros H. destruct (f x) as [y|] eqn:Hy; [|done]. simpl in H.
      destruct (mapM f l) as [k'|] eqn:Hk; [|done]. simpl in H.
      injection H as <-. constructor; [done|]. by apply IH.
    + inversion 1 as [|? y ? k' Hy Hk]; subst. rewrite Hy. simpl.
      apply IH in Hk. by rewrite Hk.
Qed.

(** ** Indices *)

Lemma np_index_lt n idx pos : np_index n idx = Ok pos → pos < n.
Proof. unfold np_index. repeat case_decide; intros [= <-]; lia. Qed.

Lemma np_index_Raise n idx e : np_index n idx = Raise e → e = IndexError.
Proof. unfold np_index. repeat case_decide; congruence. Qed.

Lemma get2_Raise {A} (a : ndarray A) i j e :
  get2 a i j = Raise e → e = IndexError.
Proof.
  unfold get2, get_row. intros [H|(r & _ & H)]%bind_Raise;
    by apply of_option_Raise in H.
Qed.

(** ** The loop of [affinity_to_correspondences] *)

Section rounding.
Context {T : Type} `{!Scalar T}.
Local Open Scope num_scope.

(** The loop has rounded the part of the array it has passed and rounds
    the rest. *)
Lemma round_flags_from_app limit (todo : list T) :
  ∀ fuel (done : list T),
    length todo ≤ fuel →
    round_flags_from limit fuel (length done) (done ++ todo)
    = done ++ map (round_flag limit) todo.
Proof.
  induction todo as [|flag todo IH]; intros fuel done Hfuel.
  - destruct fuel as [|fuel]; simpl; [done|].
    rewrite lookup_ge_None_2; [done|]. rewrite length_app. simpl. lia.
  - destruct fuel as [|fuel]; simpl in *; [lia|].
    rewrite lookup_app_r, Nat.sub_diag by lia. simpl.
    replace (<[length done:=round_flag limit flag]> (done ++ flag :: todo))
      with ((done ++ [round_flag limit flag]) ++ todo).
    + replace (S (length done)) with (length (done ++ [round_flag limit flag])).
      * rewrite IH by lia. by rewrite <- app_assoc.
      * rewrite length_app. simpl. lia.
    + rewrite insert_app_r_alt, Nat.sub_diag by lia. simpl. by rewrite <- app_assoc.
Qed.

Lemma round_flags_map limit (flags : list T) :
  round_flags limit flags = map (round_flag limit) flags.
Proof. apply (round_flags_from_app limit flags (length flags) []). lia. Qed.
End rounding.

(** ** The loops of [wknn_affinity] *)

Section scatter.
Context {T : Type} `{!Scalar T}.
Local Open Scope num_scope.

Lemma scatter_neighbours_length distances i neighbours :
  ∀ j (row row' : list T),
    scatter_neighbours distances i j neighbours row = Ok row' →
    length row' = length row.
Proof.
  induction neighbours as [|idx neighbours IH]; intros j row row'; simpl.
  - by intros [= <-].
  - destruct (get2 distances i j) as [d|]; [|done]. simpl.
    destruct (np_index (length row) idx) as [pos|]; [|done]. simpl.
    intros H%IH. by rewrite length_insert in H.
Qed.

(** A position no neighbour is written to keeps its entry. *)
Lemma scatter_neighbours_keep distances i neighbours :
  ∀ j (row row' : list T) pos,
    scatter_neighbours distances i j neighbours row = Ok row' →
    Forall (λ idx, np_index (length row) idx ≠ Ok pos) neighbours →
    row' !! pos = row !! pos.
Proof.
  induction neighbours as [|idx neighbours IH]; intros j row row' pos; simpl.
  - by intros [= <-].
  - destruct (get2 distances i j) as [d|]; [|done]. simpl.
    destruct (np_index (length row) idx) as [pos0|] eqn:Hpos0; [|done]. simpl.
    intros Hrun Hall. inversion Hall as [|? ? Hne Hall']; subst.
    erewrite IH; [|exact Hrun|by rewrite length_insert].
    apply list_lookup_insert_ne. congruence.
Qed.

(** The entry a neighbour writes stays, unless a later neighbour writes
    the same position. *)
Lemma scatter_neighbours_lookup distances i neighbours :
  ∀ j (row row' : list T) t idx distance pos,
    scatter_neighbours distances i j neighbours row = Ok row' →
    neighbours !! t = Some idx →
    get2 distances i (j + t)%nat = Ok distance →
    np_index (length row) idx = Ok pos →
    (∀ t' idx', t < t' → neighbours !! t' = Some idx' →
                np_index (length row) idx' ≠ Ok pos) →
    row' !! pos = Some (affinity_element distance).
Proof.
  induction neighbours as [|idx0 neighbours IH];
    intros j row row' t idx distance pos; simpl; [done|].
  destruct (get2 distances i j) as [d|] eqn:Hd; [|done]. simpl.
  destruct (np_index (length row) idx0) as [pos0|] eqn:Hpos0; [|done]. simpl.
  intros Hrun Ht Hdist Hpos Hlater. destruct t as [|t]; simpl in Ht.
  - injection Ht as ->. rewrite Nat.add_0_r in Hdist.
    rewrite Hd in Hdist. injection Hdist as ->.
    rewrite Hpos0 in Hpos. injection Hpos as ->.
    erewrite scatter_neighbours_keep; [|exact Hrun|].
    + apply list_lookup_insert_eq. by eapply np_index_lt.
    + rewrite length_insert. apply Forall_lookup. intros t' idx' Hl.
      apply (Hlater (S t') idx'); [lia|done].
  - rewrite <- Nat.add_succ_comm in Hdist.
    eapply IH; [exact Hrun|exact Ht|exact Hdist| |].
    + by rewrite length_insert.
    + rewrite length_insert. intros t' idx' Hlt Hl.
      apply (Hlater (S t') idx'); [lia|done].
Qed.



End scatter.

Section raw_affinity.
Context {T : Type} `{!Scalar T}.
Context (nearest_neighbours :
           ndarray T → ndarray T → Z → result (ndarray T * ndarray Z)).
Local Open Scope num_scope.

(** Row [i] of the matrix before it is normalised is what the loop over
    the neighbours of [i] leaves of a row of zeros. *)
Lemma raw_affinity_row features1 features2 k distances neighbourIndices affinity12 i :
  nearest_neighbours features1 features2 k = Ok (distances, neighbourIndices) →
  raw_affinity nearest_neighbours features1 features2 k = Ok affinity12 →
  i < nrows features1 →
  ∃ neighbours row,
    get_row neighbourIndices i = Ok neighbours
    ∧ rows affinity12 !! i = Some row
    ∧ scatter_neighbours distances i 0 neighbours (zeros1 (nrows features2)) = Ok row.
Proof.
  intros Hnn Hraw Hi. unfold raw_affinity in Hraw. rewrite Hnn in Hraw.
  simpl in Hraw.
  destruct (mapM _ _) as [affinityRows|] eqn:Hrows; [|done].
  injection Hraw as <-. simpl. apply mapM_Ok in Hrows.
  destruct (Forall2_lookup_l _ _ _ i i Hrows) as (row & Hrow & Hi').
  { by apply lookup_seq_lt. }
  unfold affinity_row in Hi'.
  destruct (get_row neighbourIndices i) as [neighbours|]; [|done].
  by exists neighbours, row.
Qed.

Lemma raw_affinity_shape features1 features2 k affinity12 :
  raw_affinity nearest_neighbours features1 features2 k = Ok affinity12 →
  nrows affinity12 = nrows features1 ∧ ncols affinity12 = nrows features2.
Proof.
  unfold raw_affinity.
  destruct (nearest_neighbours _ _ _) as [[distances neighbourIndices]|]; [|done].
  simpl. destruct (mapM _ _) as [affinityRows|] eqn:Hrows; [|done].
  intros [= <-]. apply mapM_Ok, Forall2_length in Hrows.
  rewrite length_seq in Hrows. by unfold nrows.
Qed.

(** The routine raises what the oracle raises, and nothing else but
    [IndexError]. *)
Lemma wknn_affinity_raises features1 features2 k e :
  wknn_affinity nearest_neighbours features1 features2 k = Raise e →
  nearest_neighbours features1 features2 k = Raise e ∨ e = IndexError.
Proof.
  unfold wknn_affinity, raw_affinity.
  destruct (nearest_neighbours _ _ _) as [[distances neighbourIndices]|e'];
    simpl; [|intros [= ->]; by left].
  destruct (mapM _ _) as [affinityRows|e'] eqn:Hrows; simpl; [done|].
  intros [= <-]. right. clear -Hrows.
  revert Hrows. generalize (seq 0 (nrows features1)) as l.
  assert (Hs : ∀ i neighbours j row e',
             scatter_neighbours distances i j neighbours row = Raise e' →
             e' = IndexError).
  { intros i neighbours. induction neighbours as [|idx neighbours IH];
      intros j row e''; simpl; [done|].
    intros [H|(d & _ & [H|(pos & _ & H)]%bind_Raise)]%bind_Raise.
    - by apply get2_Raise in H.
    - by apply np_index_Raise in H.
    - by eapply IH. }
  intros l. revert e'. induction l as [|i l IH]; intros e'; simpl; [done|].
  intros [H|(row & _ & [H|(k' & _ & H)]%bind_Raise)]%bind_Raise.
  - unfold affinity_row in H.
    apply bind_Raise in H as [H|(neighbours & _ & H)].
    + by apply of_option_Raise in H.
    + by eapply Hs.
  - by eapply IH.
  - done.
Qed.
End raw_affinity.

(** ** State *)

Lemma mut_bind_Ok {S A B} (m : Mut S A) (f : A → Mut S B) s b s' :
  (m ≫= f) s = (Ok b, s') → ∃ a s1, m s = (Ok a, s1) ∧ f a s1 = (Ok b, s').
Proof.
  unfold mbind, mut_bind. destruct (m s) as [[a|e] s1]; [eauto|done].
Qed.

Lemma lift_Ok {S A} (r : result A) (s s' : S) a :
  lift r s = (Ok a, s') ↔ r = Ok a ∧ s' = s.
Proof. unfold lift. split; [intros [= -> ->]|intros [-> ->]]; done. Qed.

(** ** The passes of [inlier_detection] *)

Section passes.
Context {T : Type} `{!Scalar T}.
Local Open Scope num_scope.

Lemma read_probability_Ok i (p p' : list T) x :
  read_probability i p = (Ok x, p') ↔ p !! i = Some x ∧ p' = p.
Proof.
  unfold read_probability. split.
  - intros [= H <-]. by apply of_option_Ok in H.
  - intros [H ->]. by rewrite H.
Qed.

Lemma write_probability_Ok i x (p p' : list T) u :
  write_probability i x p = (Ok u, p') ↔ i < length p ∧ p' = <[i := x]> p.
Proof.
  unfold write_probability. destruct u. case_decide; split.
  - by intros [= <-].
  - by intros [_ ->].
  - done.
  - intros [? _]. lia.
Qed.

Lemma flag_gate_length correspondingFlags :
  ∀ i (p p' : list T),
    flag_gate i correspondingFlags p = (Ok (), p') → length p' = length p.
Proof.
  induction correspondingFlags as [|flag flags IH]; intros i p p'; simpl.
  - by intros [= <-].
  - intros (u & p1 & Hstep & Hrest)%mut_bind_Ok. apply IH in Hrest.
    rewrite Hrest. destruct (flag <? lit 0.5).
    + apply write_probability_Ok in Hstep as [_ ->]. apply length_insert.
    + by injection Hstep as _ <-.
Qed.

(** The sums are read off the array, which stays as it is. *)
Lemma sigma_sums_state features correspondingFeatures elements :
  ∀ sigmaNumerator sigmaDenominator (p p' : list T) r,
    sigma_sums features correspondingFeatures elements
      sigmaNumerator sigmaDenominator p = (r, p') → p' = p.
Proof.
  induction elements as [|i elements IH]; intros num den p p' r; simpl.
  - by intros [= _ <-].
  - unfold mbind, mut_bind, lift, read_probability.
    destruct (residual features correspondingFeatures i) as [d|]; [|by intros [= _ <-]].
    destruct (p !! i) as [x|]; simpl; [|by intros [= _ <-]]. apply IH.
Qed.

(** After the distance pass an element it has passed holds the
    responsibility of the Gaussian at its residual, and the others hold what
    they held. *)
Lemma distance_pass_spec features correspondingFeatures sigmaa lambdaa elements :
  ∀ (p p' : list T),
    distance_pass features correspondingFeatures sigmaa lambdaa elements p
      = (Ok (), p') →
    NoDup elements →
    length p' = length p
    ∧ (∀ i, i ∈ elements →
         ∃ distance,
           residual features correspondingFeatures i = Ok distance
           ∧ p' !! i = Some (gaussian_density sigmaa distance
                             / (gaussian_density sigmaa distance + lambdaa)))
    ∧ (∀ i, i ∉ elements → p' !! i = p !! i).
Proof.
  induction elements as [|i elements IH]; intros p p'; simpl.
  - intros [= <-] _. split; [done|]. split; [|done]. by intros i ?%elem_of_nil.
  - intros (d & p1 & [Hd ->]%lift_Ok & (u & p2 & Hw & Hrest)%mut_bind_Ok)%mut_bind_Ok.
    intros [Hi Hnd]%NoDup_cons. apply write_probability_Ok in Hw as [Hlt ->].
    destruct (IH _ _ Hrest Hnd) as (Hlen & Hin & Hout).
    rewrite length_insert in Hlen. split; [done|]. split.
    + intros i' [->|Hi']%elem_of_cons; [|by apply Hin].
      exists d. split; [done|]. rewrite (Hout _ Hi).
      by apply list_lookup_insert_eq.
    + intros i' [Hne Hi']%not_elem_of_cons. rewrite (Hout _ Hi').
      by apply list_lookup_insert_ne.
Qed.

(** After the normal pass an element it has passed holds what it held
    times the agreement of its normals. *)
Lemma normal_pass_spec features correspondingFeatures elements :
  ∀ (p p' : list T),
    normal_pass features correspondingFeatures elements p = (Ok (), p') →
    NoDup elements →
    length p' = length p
    ∧ (∀ i, i ∈ elements →
         ∃ agreement x,
           normal_agreement features correspondingFeatures i = Ok agreement
           ∧ p !! i = Some x
           ∧ p' !! i = Some (x * agreement))
    ∧ (∀ i, i ∉ elements → p' !! i = p !! i).
Proof.
  induction elements as [|i elements IH]; intros p p'; simpl.
  - intros [= <-] _. split; [done|]. split; [|done]. by intros i ?%elem_of_nil.
  - intros (a & p1 & [Ha ->]%lift_Ok
            & (x & p2 & [Hx ->]%read_probability_Ok
               & (u & p3 & Hw & Hrest)%mut_bind_Ok)%mut_bind_Ok)%mut_bind_Ok.
    intros [Hi Hnd]%NoDup_cons. apply write_probability_Ok in Hw as [Hlt ->].
    destruct (IH _ _ Hrest Hnd) as (Hlen & Hin & Hout).
    rewrite length_insert in Hlen. split; [done|]. split.
    + intros i' [->|Hi']%elem_of_cons.
      * exists a, x. split; [done|]. split; [done|]. rewrite (Hout _ Hi).
        by apply list_lookup_insert_eq.
      * destruct (Hin _ Hi') as (a' & x' & Ha' & Hx' & Hp').
        exists a', x'. split; [done|]. split; [|done].
        rewrite <- Hx'. symmetry. apply list_lookup_insert_ne. by intros ->.
    + intros i' [Hne Hi']%not_elem_of_cons. rewrite (Hout _ Hi').
      by apply list_lookup_insert_ne.
Qed.

Lemma normal_agreement_Ok features correspondingFeatures i agreement :
  normal_agreement features correspondingFeatures i = Ok agreement →
  ∃ feature correspondingFeature dotProduct,
    get_row features i = Ok feature
    ∧ get_row correspondingFeatures i = Ok correspondingFeature
    ∧ dot (slice_3_6 feature) (slice_3_6 correspondingFeature) = Ok dotProduct
    ∧ agreement = dotProduct / lit 2.0 + lit 0.5.
Proof.
  unfold normal_agreement.
  intros (f & Hf & (cf & Hcf & (d & Hd & [= <-])%bind_Ok)%bind_Ok)%bind_Ok.
  by exists f, cf, d.
Qed.

Lemma inlier_detection_formula features correspondingFeatures correspondingFlags
    kappaa (p p' : list T) :
  inlier_detection features correspondingFeatures correspondingFlags kappaa p
    = (Ok (), p') →
  ∃ sigmaa,
    estimated_sigma features correspondingFeatures correspondingFlags p = Ok sigmaa
    ∧ length p' = length p
    ∧ ∀ i, i < nrows features →
        ∃ distance feature correspondingFeature dotProduct,
          residual features correspondingFeatures i = Ok distance
          ∧ get_row features i = Ok feature
          ∧ get_row correspondingFeatures i = Ok correspondingFeature
          ∧ dot (slice_3_6 feature) (slice_3_6 correspondingFeature) = Ok dotProduct
          ∧ p' !! i = Some (final_probability sigmaa kappaa distance dotProduct).
Proof.
  unfold inlier_detection, estimated_sigma.
  intros (u & p1 & Hgate & (sums & p2 & Hsums
          & (u' & p3 & Hzero & (u'' & p4 & Hdist & Hnormal)%mut_bind_Ok)%mut_bind_Ok)%mut_bind_Ok)%mut_bind_Ok.
  destruct u. pose proof (sigma_sums_state _ _ _ _ _ _ _ _ Hsums) as ->.
  assert (p3 = p1) as ->.
  { case_decide; [done|]. by injection Hzero as <-. }
  exists (sigma_of sums). split.
  { unfold mbind at 1, mut_bind at 1. rewrite Hgate. simpl. by rewrite Hsums. }
  destruct u''.
  destruct (distance_pass_spec _ _ _ _ _ _ _ Hdist (NoDup_seq _ _))
    as (Hlen1 & Hin1 & _).
  destruct (normal_pass_spec _ _ _ _ _ Hnormal (NoDup_seq _ _))
    as (Hlen2 & Hin2 & _).
  split. { rewrite Hlen2, Hlen1. by eapply flag_gate_length. }
  intros i Hi.
  assert (Hel : i ∈ seq 0 (nrows features)) by (apply elem_of_seq; lia).
  destruct (Hin1 _ Hel) as (d & Hd & Hp4).
  destruct (Hin2 _ Hel) as (a & x & Ha & Hx & Hp').
  apply normal_agreement_Ok in Ha as (f & cf & dp & Hf & Hcf & Hdp & ->).
  exists d, f, cf, dp. repeat (split; [done|]).
  rewrite Hp'. rewrite Hp4 in Hx. by injection Hx as <-.
Qed.
End passes.

(** ** The value [inlier_detection] leaves *)

Section inlier_detection_facts.
Context {T : Type} `{!Scalar T}.
Local Open Scope num_scope.

End inlier_detection_facts.

(** ** The names and the result of [rigid_transformation] *)



Section rigid_transformation_facts.
Context {T : Type} `{!Scalar T}.
Context (eig : ndarray T → result (list T * ndarray T)).
Context (globals : gmap string (pyval T)).
Local Open Scope num_scope.

(** No parameter has the name of a name the body reads. *)
Lemma entry_locals_free (features correspondingFeatures weights : pyval T) x :
  x ∈ free_names →
  entry_locals features correspondingFeatures weights !! x = None.
Proof.
  unfold free_names, entry_locals, parameters. simpl.
  rewrite !elem_of_cons, elem_of_nil.
  intros [->|[->|[->|[->|[->|[]]]]]]; by simplify_map_eq.
Qed.

Lemma name_entry_locals (features correspondingFeatures weights : pyval T) x :
  x ∈ free_names →
  name globals (entry_locals features correspondingFeatures weights) x
  = lift (of_option (NameError x) (globals !! x)).
Proof.
  intros Hx. unfold name, lookup_name. by rewrite entry_locals_free.
Qed.

Section two_calls.
Context (locals locals' : gmap string (pyval T)).
Context (Hfree : ∀ x, x ∈ free_names → name globals locals x = name globals locals' x).






End two_calls.

Lemma returns_None_bind {A} (m : Mut (world T) A) f :
  (∀ a, returns_None (f a)) → returns_None (m ≫= f).
Proof.
  intros Hf w v w' (a & w1 & _ & Hrun)%mut_bind_Ok. by eapply Hf.
Qed.

Lemma rigid_transformation_body_returns_None locals :
  returns_None (rigid_transformation_body eig globals locals).
Proof.
  unfold rigid_transformation_body.
  repeat first
    [ apply returns_None_bind; intros
    | match goal with p : (_ * _)%type |- _ => destruct p end ].
  by intros w v w' [= <- _].
Qed.

(** C2 (as the code has it): a call that ends well returns [None], never
    the transformation matrix. *)
Theorem rigid_transformation_returns_None
    (features correspondingFeatures weights : pyval T) (w w' : world T) v :
  rigid_transformation eig globals features correspondingFeatures weights w
    = (Ok v, w') →
  v = PNone.
Proof. apply rigid_transformation_body_returns_None. Qed.
End rigid_transformation_facts.

(** ** Arrays *)

Section arrays_facts.
Context {T : Type} `{!Scalar T}.
Local Open Scope num_scope.

Lemma at1_tabulate1 n (f : nat → T) i : i < n → at1 (tabulate1 n f) i = f i.
Proof.
  intros Hi. unfold at1, tabulate1.
  rewrite (nth_indep _ zero (f 0%nat)) by (rewrite length_map, length_seq; lia).
  rewrite (map_nth f), seq_nth by lia. done.
Qed.

Lemma at2_tabulate2 n m (f : nat → nat → T) i j :
  i < n → j < m → at2 (tabulate2 n m f) i j = f i j.
Proof.
  intros Hi Hj. unfold at2, tabulate2. simpl.
  rewrite (nth_indep _ [] (tabulate1 m (f 0%nat)))
    by (rewrite length_map, length_seq; lia).
  rewrite (map_nth (λ i, tabulate1 m (f i))), seq_nth by lia.
  by apply at1_tabulate1.
Qed.

Lemma tabulate1_ext n (f g : nat → T) :
  (∀ i, i < n → f i = g i) → tabulate1 n f = tabulate1 n g.
Proof.
  intros Hfg. unfold tabulate1. apply map_ext_in. intros i Hi%in_seq.
  apply Hfg. lia.
Qed.

Lemma at2_normalize_rows_tabulate2 n m (f : nat → nat → T) i j :
  i < n → j < m →
  at2 (normalize_rows (tabulate2 n m f)) i j
  = f i j / np_sum (tabulate1 m (f i)).
Proof.
  intros Hi Hj. unfold at2, at1, normalize_rows, tabulate2, tabulate1. simpl.
  rewrite !nth_lookup, !list_lookup_fmap, lookup_seq_lt by done. simpl.
  by rewrite !list_lookup_fmap, lookup_seq_lt by done.
Qed.

Lemma bdim_same n : bdim n n = Ok n.
Proof. unfold bdim. by rewrite decide_True. Qed.

Lemma bpos_lt n i : i < n → bpos n i = i.
Proof. unfold bpos. case_decide; lia. Qed.

Lemma nrows_tabulate2 n m (f : nat → nat → T) : nrows (tabulate2 n m f) = n.
Proof. unfold nrows, tabulate2. simpl. by rewrite length_map, length_seq. Qed.

Lemma transpose_shape (a : ndarray T) :
  nrows (transpose a) = ncols a ∧ ncols (transpose a) = nrows a.
Proof. unfold transpose. by rewrite nrows_tabulate2. Qed.
End arrays_facts.

(** ** What [fuse_affinities] computes and returns *)

Section fuse_affinities_facts.
Context {T : Type} `{!Scalar T}.
Local Open Scope num_scope.

Lemma deref2_Ok (l : loc) (a : ndarray T) (w : world T) :
  mem w !! l = Some (Arr2 a) → deref2 (PRef l) w = (Ok a, w).
Proof. intros H. unfold deref2. by rewrite H. Qed.

(** The two matrices are read, two new arrays are made, [True] is
    returned. *)
Lemma fuse_affinities_run (l12 l21 : loc) (affinityFused : pyval T)
    (a12 a21 sum : ndarray T) (w : world T) :
  mem w !! l12 = Some (Arr2 a12) →
  mem w !! l21 = Some (Arr2 a21) →
  zip2 sadd a12 (transpose a21) = Ok sum →
  let l := fresh (dom (mem w)) in
  let mem1 := <[l := Arr2 sum]> (mem w) in
  let l' := fresh (dom mem1) in
  fuse_affinities (PRef l12) (PRef l21) affinityFused w
  = (Ok (PBool true),
     World (<[l' := Arr2 (normalize_rows sum)]> mem1) (stdout w)).
Proof.
  intros H12 H21 Hsum. simpl. unfold fuse_affinities.
  unfold mbind at 1, mut_bind at 1. rewrite (deref2_Ok _ _ _ H12).
  unfold mbind at 1, mut_bind at 1. rewrite (deref2_Ok _ _ _ H21).
  rewrite Hsum. unfold mbind at 1, mut_bind at 1. unfold lift at 1.
  unfold mbind at 1, mut_bind at 1. unfold alloc at 1.
  unfold mbind at 1, mut_bind at 1. unfold deref2 at 1. simpl.
  rewrite lookup_insert_eq. reflexivity.
Qed.

(** For two affinities of shapes (N_A, N_B) and (N_B, N_A) the routine
    computes A12 + transpose(A21) with each row divided by its sum into a
    new array, returns [True], and leaves the two matrices as they were. *)
Lemma fuse_affinities_computes (l12 l21 : loc) (affinityFused : pyval T)
    (a12 a21 : ndarray T) (w : world T) :
  mem w !! l12 = Some (Arr2 a12) →
  mem w !! l21 = Some (Arr2 a21) →
  nrows a21 = ncols a12 →
  ncols a21 = nrows a12 →
  ∃ fused w',
    fuse_affinities (PRef l12) (PRef l21) affinityFused w = (Ok (PBool true), w')
    ∧ mem w' !! l12 = Some (Arr2 a12)
    ∧ mem w' !! l21 = Some (Arr2 a21)
    ∧ fused_affinity a12 a21 = Ok fused
    ∧ (∃ l, mem w !! l = None ∧ mem w' !! l = Some (Arr2 fused))
    ∧ nrows fused = nrows a12
    ∧ ncols fused = ncols a12
    ∧ ∀ i j, i < nrows a12 → j < ncols a12 →
        at2 fused i j
        = (at2 a12 i j + at2 a21 j i)
          / np_sum (tabulate1 (ncols a12) (λ j', at2 a12 i j' + at2 a21 j' i)).
Proof.
  intros H12 H21 Hrows Hcols.
  destruct (transpose_shape a21) as [Htr Htc].
  set (sum := tabulate2 (nrows a12) (ncols a12)
                (λ i j, at2 a12 i j + at2 a21 j i)).
  assert (Hsum : zip2 sadd a12 (transpose a21)
                 = Ok (tabulate2 (nrows a12) (ncols a12) (λ i j,
                     at2 a12 (bpos (nrows a12) i) (bpos (ncols a12) j)
                     + at2 (transpose a21) (bpos (nrows (transpose a21)) i)
                         (bpos (ncols (transpose a21)) j)))).
  { unfold zip2. rewrite Htr, Htc, Hrows, Hcols, !bdim_same. done. }
  pose proof (fuse_affinities_run l12 l21 affinityFused _ _ _ w H12 H21 Hsum)
    as Hrun. simpl in Hrun.
  eexists _, _. split; [exact Hrun|]. simpl.
  set (l := fresh (dom (mem w))) in *.
  assert (Hl : mem w !! l = None).
  { apply not_elem_of_dom. apply is_fresh. }
  set (mem1 := <[l := _]> (mem w)) in *.
  set (l' := fresh (dom mem1)) in *.
  assert (Hl' : mem1 !! l' = None).
  { apply not_elem_of_dom. apply is_fresh. }
  assert (Hne : ∀ k o, mem w !! k = Some o → k ≠ l ∧ k ≠ l').
  { intros k o Hk. split; intros ->; [congruence|].
    unfold mem1 in Hl'. rewrite lookup_insert_ne in Hl'; [congruence|].
    intros <-. by rewrite lookup_insert_eq in Hl'. }
  split. { destruct (Hne _ _ H12). unfold mem1. by rewrite !lookup_insert_ne. }
  split. { destruct (Hne _ _ H21). unfold mem1. by rewrite !lookup_insert_ne. }
  split. { unfold fused_affinity. by rewrite Hsum. }
  split.
  { exists l'. split; [|by rewrite lookup_insert_eq].
    unfold mem1 in Hl'. destruct (decide (l = l')) as [<-|Hll].
    - by rewrite lookup_insert_eq in Hl'.
    - by rewrite lookup_insert_ne in Hl'. }
  split. { unfold normalize_rows, nrows. simpl. by rewrite !length_map, length_seq. }
  split; [done|]. intros i j Hi Hj.
  rewrite at2_normalize_rows_tabulate2 by done.
  assert (Hentry : ∀ j', j' < ncols a12 →
            at2 a12 (bpos (nrows a12) i) (bpos (ncols a12) j')
            + at2 (transpose a21) (bpos (nrows (transpose a21)) i)
                (bpos (ncols (transpose a21)) j')
            = at2 a12 i j' + at2 a21 j' i).
  { intros j' Hj'. rewrite Htr, Htc, !bpos_lt by lia.
    unfold transpose. by rewrite at2_tabulate2 by lia. }
  rewrite Hentry by done. f_equal. f_equal. by apply tabulate1_ext.
Qed.

(** C3 (as the code has it): for two affinities of shapes (N_A, N_B) and
    (N_B, N_A) the routine computes A12 + transpose(A21) with each row
    divided by its sum, and hands it to nobody.  It returns [True], which
    is no array; the array handed over as [affinityFused], which the
    docstring names as the output, and every other object of the caller
    hold afterwards what they held; the matrix is in an object the call
    has made, to which the caller has no reference. *)
Theorem fuse_affinities_discards_the_fused_matrix (l12 l21 lF : loc)
    (a12 a21 : ndarray T) (out : pyobj T) (w : world T) :
  mem w !! l12 = Some (Arr2 a12) →
  mem w !! l21 = Some (Arr2 a21) →
  mem w !! lF = Some out →
  nrows a21 = ncols a12 →
  ncols a21 = nrows a12 →
  ∃ fused v w',
    fuse_affinities (PRef l12) (PRef l21) (PRef lF) w = (Ok v, w')
    ∧ fused_affinity a12 a21 = Ok fused
    ∧ v = PBool true
    ∧ (∀ l, v ≠ PRef l)
    ∧ mem w' !! lF = Some out
    ∧ (∀ l o, mem w !! l = Some o → mem w' !! l = Some o)
    ∧ stdout w' = stdout w
    ∧ (∃ l, mem w !! l = None ∧ mem w' !! l = Some (Arr2 fused))
    ∧ nrows fused = nrows a12
    ∧ ncols fused = ncols a12
    ∧ ∀ i j, i < nrows a12 → j < ncols a12 →
        at2 fused i j
        = (at2 a12 i j + at2 a21 j i)
          / np_sum (tabulate1 (ncols a12) (λ j', at2 a12 i j' + at2 a21 j' i)).
Proof.
  intros H12 H21 HF Hrows Hcols.
  destruct (fuse_affinities_computes l12 l21 (PRef lF) a12 a21 w H12 H21 Hrows Hcols)
    as (fused & w' & Hrun & _ & _ & Hfused & Hnew & Hn & Hm & Hentries).
  assert (Hkeep : stdout w' = stdout w
                  ∧ ∀ l o, mem w !! l = Some o → mem w' !! l = Some o).
  { unfold fused_affinity in Hfused.
    apply bind_Ok in Hfused as (sum & Hsum & _).
    rewrite (fuse_affinities_run l12 l21 (PRef lF) a12 a21 sum w H12 H21 Hsum)
      in Hrun.
    injection Hrun as <-. simpl. split; [done|]. intros l o Hl.
    assert (Hfresh : ∀ (m : gmap loc (pyobj T)) l' o',
              m !! l' = Some o' → l' ≠ fresh (dom m)).
    { intros m l' o' Hl' ->. by apply elem_of_dom_2, is_fresh in Hl'. }
    rewrite lookup_insert_ne.
    - rewrite lookup_insert_ne; [done|]. apply not_eq_sym. by eapply Hfresh.
    - apply not_eq_sym. eapply Hfresh. rewrite lookup_insert_ne; [done|].
      apply not_eq_sym. by eapply Hfresh. }
  destruct Hkeep as [Hout Hkeep].
  exists fused, (PBool true), w'. repeat (split; [done|]).
  split; [by apply Hkeep|]. repeat (split; [done|]). done.
Qed.
End fuse_affinities_facts.

(** ** [wknn_affinity] and its parameter [k] *)

Section wknn_affinity_facts.
Context {T : Type} `{!Scalar T}.
Context (nearest_neighbours :
           ndarray T → ndarray T → Z → result (ndarray T * ndarray Z)).

(** C6 (amended): the routine does not look at [k]; it hands [k] to the
    oracle, raises what the oracle raises, raises [InvalidArgument] only
    when the oracle does, and depends on [k] through the answer of the
    oracle only. *)
Theorem wknn_affinity_leaves_k_to_the_oracle features1 features2 k :
  (∀ e, nearest_neighbours features1 features2 k = Raise e →
        wknn_affinity nearest_neighbours features1 features2 k = Raise e)
  ∧ (wknn_affinity nearest_neighbours features1 features2 k
       = Raise InvalidArgument →
     nearest_neighbours features1 features2 k = Raise InvalidArgument)
  ∧ (∀ k', nearest_neighbours features1 features2 k'
           = nearest_neighbours features1 features2 k →
           wknn_affinity nearest_neighbours features1 features2 k'
           = wknn_affinity nearest_neighbours features1 features2 k).
Proof.
  split; [|split].
  - intros e He. unfold wknn_affinity, raw_affinity. by rewrite He.
  - by intros [H|[=]]%wknn_affinity_raises.
  - intros k' Hk'. unfold wknn_affinity, raw_affinity. by rewrite Hk'.
Qed.
End wknn_affinity_facts.

(** * Properties in binary64 arithmetic *)

Module Float64Facts.
Import Floats Float64.
Local Open Scope float_scope.
#[local] Set Warnings "-inexact-float".

(** ** Floats *)

Lemma ltb_irrefl (x : float) : PrimFloat.ltb x x = false.
Proof.
  rewrite ltb_spec. unfold SFltb, SFcompare.
  destruct (Prim2SF x) as [s|s| |s m e]; try destruct s; simpl; try reflexivity.
  all: rewrite Z.compare_refl, ?Pos.compare_refl; simpl; try reflexivity.
  all: rewrite ?Pos.compare_cont_refl; try reflexivity.
Qed.

Lemma mul_nan_l (x : float) : nan * x = nan.
Proof.
  rewrite <- (SF2Prim_Prim2SF (nan * x)), mul_spec.
  replace (Prim2SF nan) with S754_nan by reflexivity.
  reflexivity.
Qed.

Lemma is_zero_zero_or_nan x : PrimFloat.is_zero x = true → zero_or_nan x.
Proof.
  unfold PrimFloat.is_zero, zero_or_nan. rewrite eqb_spec.
  replace (Prim2SF 0) with (S754_zero false) by reflexivity.
  unfold SFeqb, SFcompare. destruct (Prim2SF x) as [s|s| |s m e]; try done.
  - by destruct s.
  - by destruct s.
Qed.

Lemma mul_zero_or_nan x y : zero_or_nan x → zero_or_nan (x * y).
Proof.
  unfold zero_or_nan. rewrite mul_spec. unfold SF64mul, SFmul.
  destruct (Prim2SF x) as [s|s| |s m e]; try done;
    by destruct (Prim2SF y) as [s'|s'| |s' m' e'].
Qed.

Lemma add_zero_or_nan x y :
  zero_or_nan x → zero_or_nan y → zero_or_nan (x + y).
Proof.
  unfold zero_or_nan. rewrite add_spec. unfold SF64add, SFadd.
  destruct (Prim2SF x) as [s|s| |s m e]; try done;
    destruct (Prim2SF y) as [s'|s'| |s' m' e']; try done.
  by destruct s, s'.
Qed.

Lemma div_zero_or_nan x y : zero_or_nan x → zero_or_nan y → x / y = nan.
Proof.
  unfold zero_or_nan. intros Hx Hy.
  rewrite <- (SF2Prim_Prim2SF (x / y)), div_spec. unfold SF64div, SFdiv.
  destruct (Prim2SF x) as [s|s| |s m e]; try done;
    by destruct (Prim2SF y) as [s'|s'| |s' m' e'].
Qed.

(** The literals of the code are the floats Python reads them as. *)
Lemma literals :
  of_Q 0.001 = 0.001 ∧ of_Q 0.0001 = 0.0001 ∧ of_Q 0.9 = 0.9
  ∧ of_Q 0.5 = 0.5 ∧ of_Q 3.14159 = 3.14159 ∧ of_Q (-0.5) = -0.5
  ∧ of_Q 1.0 = 1 ∧ of_Q 2.0 = 2 ∧ of_Q 0.0 = 0 ∧ of_Q 3 = 3.
Proof. repeat split; vm_compute; reflexivity. Qed.

Section with_libm.
Context {libm : Libm}.

(** ** [affinity_to_correspondences] *)

(** C9: a blended flag is rounded by a strict comparison with the limit
    (0.9 by default): a flag equal to the limit becomes 0.0, a flag above
    it 1.0, any other 0.0. *)
Theorem flag_rounding_is_strict features2 flags2 affinity flagRoundingLimit
    correspondingFeatures correspondingFlags :
  affinity_to_correspondences features2 flags2 affinity flagRoundingLimit
    = Ok (correspondingFeatures, correspondingFlags) →
  default_flagRoundingLimit = 0.9
  ∧ ∃ blended,
    matvec affinity flags2 = Ok blended
    ∧ length correspondingFlags = length blended
    ∧ ∀ i flag, blended !! i = Some flag →
        (flag = flagRoundingLimit → correspondingFlags !! i = Some 0)
        ∧ (PrimFloat.ltb flagRoundingLimit flag = true →
           correspondingFlags !! i = Some 1)
        ∧ (PrimFloat.ltb flagRoundingLimit flag = false →
           correspondingFlags !! i = Some 0).
Proof.
  unfold affinity_to_correspondences.
  intros (cf & _ & (blended & Hblended & [= _ <-])%bind_Ok)%bind_Ok.
  split; [by vm_compute|]. exists blended. split; [done|]. rewrite round_flags_map.
  split; [by rewrite length_map|]. intros i flag Hflag.
  rewrite list_lookup_fmap, Hflag. simpl. unfold round_flag. simpl.
  repeat split.
  - intros ->. by rewrite ltb_irrefl.
  - by intros ->.
  - by intros ->.
Qed.

(** ** [wknn_affinity] *)

(** C8: no distance stays below the floor 0.001 and no affinity below the
    floor 0.0001; a neighbour at distance 0 is given the distance 0.001, so
    that the divisor of line 64 is not zero, and the affinity
    1 / (0.001 * 0.001), which is finite; the matrix holds it, before it
    is normalised, at the position of that neighbour (unless a later
    neighbour of the same element is written to the same position). *)
Theorem coincident_neighbour_affinity nearest_neighbours features1 features2 k
    distances neighbourIndices affinity12 i j idx pos :
  nearest_neighbours features1 features2 k = Ok (distances, neighbourIndices) →
  raw_affinity nearest_neighbours features1 features2 k = Ok affinity12 →
  i < nrows features1 →
  get2 distances i j = Ok 0 →
  get2 neighbourIndices i j = Ok idx →
  np_index (nrows features2) idx = Ok pos →
  (∀ j' idx', j < j' → get2 neighbourIndices i j' = Ok idx' →
              np_index (nrows features2) idx' ≠ Ok pos) →
  (∀ distance, PrimFloat.ltb (floor_distance distance) 0.001 = false)
  ∧ (∀ distance, PrimFloat.ltb (affinity_element distance) 0.0001 = false)
  ∧ floor_distance 0 = 0.001
  ∧ PrimFloat.is_zero (affinity_divisor 0) = false
  ∧ affinity_element 0 = 1 / (0.001 * 0.001)
  ∧ PrimFloat.is_finite (affinity_element 0) = true
  ∧ get2 affinity12 i pos = Ok (1 / (0.001 * 0.001)).
Proof.
  intros Hnn Hraw Hi Hd Hidx Hpos Hlater.
  split.
  { intros d. unfold floor_distance. simpl.
    destruct (PrimFloat.ltb d _) eqn:Hlt; [apply ltb_irrefl|exact Hlt]. }
  split.
  { intros d. unfold affinity_element. simpl.
    destruct (PrimFloat.ltb (PrimFloat.div _ _) _) eqn:Hlt;
      [apply ltb_irrefl|exact Hlt]. }
  repeat (split; [by vm_compute|]).
  destruct (raw_affinity_row _ _ _ _ _ _ _ _ Hnn Hraw Hi)
    as (neighbours & row & Hneighbours & Hrow & Hscatter).
  unfold get2. unfold get_row at 1. rewrite Hrow. simpl.
  unfold get2 in Hidx. rewrite Hneighbours in Hidx. simpl in Hidx.
  erewrite scatter_neighbours_lookup with (t := j) (idx := idx) (distance := 0);
    [by vm_compute|exact Hscatter| | | |].
  - destruct (neighbours !! j); simpl in Hidx; congruence.
  - done.
  - unfold zeros1. by rewrite length_replicate.
  - unfold zeros1. rewrite length_replicate. intros j' idx' Hlt Hj'.
    apply (Hlater j' idx' Hlt). unfold get2. rewrite Hneighbours. simpl.
    by rewrite Hj'.
Qed.

(** ** [inlier_detection] *)

(** C1 (what the code does): two elements at residual 1 with agreeing
    normals, the first flagged 0.0, the second 1.0; the element flagged
    0.0 ends with the same probability as the other, not with 0.0. *)
Theorem flag_gate_is_overwritten :
  np_exp (-0.5) = exp_at_minus_0_5 →
  np_exp (-4.5) = exp_at_minus_4_5 →
  inlier_detection gate_features gate_corresponding [0; 1] 3 [1; 1]
  = (Ok (), [0.98201379003790845; 0.98201379003790845]).
Proof.
  destruct libm as [e]. simpl. intros H05 H45.
  vm_compute. rewrite H05, H45. vm_compute. reflexivity.
Qed.

(** One element, flagged 0.0, so that every probability is 0 when the
    deviation is estimated: the call ends well and leaves NaN, whatever
    [np.exp] is. *)
Lemma zero_probabilities_give_nan :
  inlier_detection lone_feature lone_feature [0] 3 [1] = (Ok (), [nan]).
Proof.
  destruct libm as [e]. vm_compute. rewrite !mul_nan_l. vm_compute. reflexivity.
Qed.

Lemma sigma_sums_zero_or_nan features correspondingFeatures elements :
  ∀ sigmaNumerator sigmaDenominator (p p' : list float) sums,
    zero_or_nan sigmaNumerator →
    zero_or_nan sigmaDenominator →
    Forall zero_or_nan p →
    sigma_sums features correspondingFeatures elements
      sigmaNumerator sigmaDenominator p = (Ok sums, p') →
    zero_or_nan sums.1 ∧ zero_or_nan sums.2.
Proof.
  induction elements as [|i elements IH]; intros num den p p' sums Hnum Hden Hp;
    simpl.
  - by intros [= <- _].
  - intros (d & p1 & [Hd ->]%lift_Ok
            & (x & p2 & [Hx ->]%read_probability_Ok
               & (x' & p3 & [Hx' ->]%read_probability_Ok & Hrest)%mut_bind_Ok
              )%mut_bind_Ok)%mut_bind_Ok.
    rewrite Hx in Hx'. injection Hx' as <-.
    assert (Hzx : zero_or_nan x).
    { eapply Forall_forall; [exact Hp|]. by eapply list_elem_of_lookup_2. }
    eapply IH; [| |exact Hp|exact Hrest].
    + apply add_zero_or_nan; [done|]. by do 2 apply mul_zero_or_nan.
    + by apply add_zero_or_nan.
Qed.

Lemma final_probability_nan kappaa distance dotProduct :
  final_probability nan kappaa distance dotProduct = nan.
Proof.
  unfold final_probability, gaussian_density, outlier_level.
  replace (gaussian_scale nan) with nan by (vm_compute; reflexivity).
  rewrite !mul_nan_l. simpl. by rewrite ?mul_nan_l.
Qed.

(** C4 (what the code does): when every probability is a zero after the
    flags were applied, the quotient of line 173 is NaN and a call that
    ends well leaves NaN in every element; it neither raises nor leaves the
    probabilities at 0. *)
Theorem zero_probabilities_always_give_nan features correspondingFeatures
    correspondingFlags kappaa (p p1 p' : list float) :
  flag_gate 0 correspondingFlags p = (Ok (), p1) →
  Forall (λ x, PrimFloat.is_zero x = true) p1 →
  inlier_detection features correspondingFeatures correspondingFlags kappaa p
    = (Ok (), p') →
  ∀ i, (i < nrows features)%nat → p' !! i = Some nan.
Proof.
  intros Hgate Hzero Hrun i Hi.
  destruct (inlier_detection_formula _ _ _ _ _ _ Hrun)
    as (sigmaa & Hsigma & _ & Hformula).
  destruct (Hformula i Hi) as (d & f & cf & dp & _ & _ & _ & _ & ->).
  f_equal. replace sigmaa with nan; [apply final_probability_nan|].
  unfold estimated_sigma in Hsigma.
  unfold mbind at 1, mut_bind at 1 in Hsigma. rewrite Hgate in Hsigma.
  destruct (sigma_sums _ _ _ _ _ p1) as [[sums|e] p2] eqn:Hsums; [|done].
  simpl in Hsigma. injection Hsigma as <-.
  assert (Hz : zero_or_nan zero) by (vm_compute; exact I).
  assert (Hp1 : Forall zero_or_nan p1).
  { eapply Forall_impl; [exact Hzero|apply is_zero_zero_or_nan]. }
  destruct (sigma_sums_zero_or_nan _ _ _ _ _ _ _ _ Hz Hz Hp1 Hsums)
    as [Hnum Hden].
  unfold sigma_of. simpl. rewrite (div_zero_or_nan _ _ Hnum Hden).
  vm_compute. reflexivity.
Qed.
End with_libm.

(** ** Worked examples *)

(** The examples run with the table [sample_libm] for [np.exp]. *)
#[local] Existing Instance sample_libm.

Lemma flag_rounding_is_strict_witness :
  affinity_to_correspondences blend_features blend_flags blend_affinity 0.9
    = Ok (NdArray 1 [[1.1000000000000001]; [1.05]], [0; 1])
  ∧ default_flagRoundingLimit = 0.9
  ∧ ∃ blended,
      matvec blend_affinity blend_flags = Ok blended
      ∧ length [0; 1] = length blended
      ∧ ∀ i flag, blended !! i = Some flag →
          (flag = 0.9 → [0; 1] !! i = Some 0)
          ∧ (PrimFloat.ltb 0.9 flag = true → [0; 1] !! i = Some 1)
          ∧ (PrimFloat.ltb 0.9 flag = false → [0; 1] !! i = Some 0).
Proof.
  assert (H : affinity_to_correspondences blend_features blend_flags
                blend_affinity 0.9
              = Ok (NdArray 1 [[1.1000000000000001]; [1.05]], [0; 1]))
    by (vm_compute; reflexivity).
  split; [exact H|]. exact (flag_rounding_is_strict _ _ _ _ _ _ H).
Defined.

Lemma coincident_neighbour_affinity_witness :
  raw_affinity (fixed_oracle coincident_distances coincident_indices)
      coincident_source coincident_target 2
    = Ok (NdArray 2 [[1000000; 1]])
  ∧ get2 coincident_distances 0 0 = Ok 0
  ∧ (∀ distance, PrimFloat.ltb (floor_distance distance) 0.001 = false)
  ∧ (∀ distance, PrimFloat.ltb (affinity_element distance) 0.0001 = false)
  ∧ floor_distance 0 = 0.001
  ∧ PrimFloat.is_zero (affinity_divisor 0) = false
  ∧ affinity_element 0 = 1 / (0.001 * 0.001)
  ∧ PrimFloat.is_finite (affinity_element 0) = true
  ∧ get2 (NdArray 2 [[1000000; 1]]) 0 0 = Ok (1 / (0.001 * 0.001)).
Proof.
  split; [vm_compute; reflexivity|]. split; [reflexivity|].
  apply (coincident_neighbour_affinity
           (fixed_oracle coincident_distances coincident_indices)
           coincident_source coincident_target 2
           coincident_distances coincident_indices
           (NdArray 2 [[1000000; 1]]) 0 0 0%Z 0).
  - reflexivity.
  - vm_compute; reflexivity.
  - vm_compute; lia.
  - reflexivity.
  - reflexivity.
  - reflexivity.
  - intros [|[|j']] idx' Hlt Hidx; [lia| |done].
    vm_compute in Hidx. injection Hidx as <-. vm_compute. discriminate.
Defined.

Lemma flag_gate_is_overwritten_witness :
  np_exp (-0.5) = exp_at_minus_0_5
  ∧ np_exp (-4.5) = exp_at_minus_4_5
  ∧ inlier_detection gate_features gate_corresponding [0; 1] 3 [1; 1]
    = (Ok (), [0.98201379003790845; 0.98201379003790845]).
Proof.
  split; [reflexivity|]. split; [reflexivity|].
  apply (flag_gate_is_overwritten (libm := sample_libm)); reflexivity.
Defined.

Lemma zero_probabilities_always_give_nan_witness :
  flag_gate 0 [0] [1] = (Ok (), [0])
  ∧ Forall (λ x, PrimFloat.is_zero x = true) [0]
  ∧ inlier_detection lone_feature lone_feature [0] 3 [1] = (Ok (), [nan])
  ∧ ∀ i, (i < nrows lone_feature)%nat → [nan] !! i = Some nan.
Proof.
  assert (Hgate : flag_gate 0 [0] [1] = (Ok (), [0])) by reflexivity.
  assert (Hzero : Forall (λ x, PrimFloat.is_zero x = true) [0])
    by (repeat constructor).
  assert (Hrun : inlier_detection lone_feature lone_feature [0] 3 [1]
                 = (Ok (), [nan])) by apply zero_probabilities_give_nan.
  split; [exact Hgate|]. split; [exact Hzero|]. split; [exact Hrun|].
  exact (zero_probabilities_always_give_nan _ _ _ _ _ _ _ Hgate Hzero Hrun).
Defined.



Lemma rigid_transformation_returns_None_witness :
  ∃ v w',
    rigid_transformation identity_eig script_globals
      (PRef 0%nat) (PRef 1%nat) (PRef 2%nat) script_world = (Ok v, w')
    ∧ v = PNone
    ∧ mem w' !! 0%nat
      = Some (Arr2 (NdArray 3 [[2; 1; 1]; [0; 1; 0]; [0; 0; 1]])).
Proof.
  pose (out := rigid_transformation identity_eig script_globals
                 (PRef 0%nat) (PRef 1%nat) (PRef 2%nat) script_world).
  assert (Hv : ∃ v, out.1 = Ok v) by (eexists; vm_compute; reflexivity).
  destruct Hv as [v Hv]. exists v, out.2.
  assert (Hrun : rigid_transformation identity_eig script_globals
                   (PRef 0%nat) (PRef 1%nat) (PRef 2%nat) script_world
                 = (Ok v, out.2)).
  { fold out. rewrite <- Hv. by destruct out. }
  split; [exact Hrun|]. split.
  - exact (rigid_transformation_returns_None identity_eig script_globals
             _ _ _ _ _ _ Hrun).
  - vm_compute. reflexivity.
Defined.

(** The matrix of lines 282-286 has the scaled rotation of the translation
    in its last column, not the translation: here for the scale 2, the half
    turn about the third axis and the translation (1, 2, 3). *)
Lemma transformation_matrix_last_column :
  transformation_matrix 2 half_turn [1; 2; 3]
  = Ok (NdArray 4 [[-2; 0; 0; -2]; [0; -2; 0; -4]; [0; 0; 2; 6]; [0; 0; 0; 1]]).
Proof. vm_compute. reflexivity. Qed.

(** The call returns [True], not the fused matrix, which is
    [[1, 0], [0.25, 0.75]] here; the array handed over as [affinityFused]
    stays as it was. *)
Lemma fuse_affinities_discards_the_fused_matrix_witness :
  mem fuse_world !! 0%nat = Some (Arr2 fuse_a12)
  ∧ mem fuse_world !! 1%nat = Some (Arr2 fuse_a21)
  ∧ mem fuse_world !! 2%nat = Some (Arr2 fuse_out)
  ∧ nrows fuse_a21 = ncols fuse_a12
  ∧ ncols fuse_a21 = nrows fuse_a12
  ∧ fused_affinity fuse_a12 fuse_a21 = Ok (NdArray 2 [[1; 0]; [0.25; 0.75]])
  ∧ ∃ w',
      fuse_affinities (PRef 0%nat) (PRef 1%nat) (PRef 2%nat) fuse_world
        = (Ok (PBool true), w')
      ∧ mem w' !! 2%nat = Some (Arr2 fuse_out).
Proof.
  do 5 (split; [reflexivity|]). split; [vm_compute; reflexivity|].
  destruct (fuse_affinities_discards_the_fused_matrix 0%nat 1%nat 2%nat
              fuse_a12 fuse_a21 (Arr2 fuse_out) fuse_world)
    as (fused & v & w' & Hrun & _ & -> & _ & Hout & _); try reflexivity.
  by exists w'.
Defined.

(** C6 (as stated, refuted): with [k = 0] and an oracle that answers with no
    neighbour the call returns a matrix of NaN; with [k = 3] for two target
    elements and an oracle that marks the missing neighbour by the index 2
    it raises [IndexError]; neither fails with [InvalidArgument]. *)
Lemma wknn_affinity_accepts_any_k :
  ¬ (1 ≤ 0)%Z
  ∧ wknn_affinity (fixed_oracle (NdArray 0 [[]]) (NdArray 0 [[]]))
      coincident_source coincident_target 0
    = Ok (NdArray 2 [[nan; nan]])
  ∧ ¬ (3 ≤ Z.of_nat (nrows coincident_target))%Z
  ∧ wknn_affinity
      (fixed_oracle (NdArray 3 [[0; 1; infinity]]) (NdArray 3 [[0; 1; 2]]%Z))
      coincident_source coincident_target 3
    = Raise IndexError.
Proof.
  split; [lia|]. split; [vm_compute; reflexivity|].
  split; [unfold nrows; simpl; lia|]. vm_compute; reflexivity.
Qed.

Lemma wknn_affinity_leaves_k_to_the_oracle_witness :
  wknn_affinity refusing_oracle coincident_source coincident_target 0
    = Raise InvalidArgument
  ∧ refusing_oracle coincident_source coincident_target 0
    = Raise InvalidArgument.
Proof.
  assert (H : wknn_affinity refusing_oracle coincident_source
                coincident_target 0 = Raise InvalidArgument) by reflexivity.
  split; [exact H|].
  exact (proj1 (proj2 (wknn_affinity_leaves_k_to_the_oracle refusing_oracle
                         coincident_source coincident_target 0)) H).
Defined.
End Float64Facts.

(** * Properties in exact arithmetic *)

Module ExactFacts.
Import Reals Lra Exact.
Local Open Scope R_scope.
#[local] Existing Instance real_scalar.

Lemma lit_0 : lit 0 = 0.
Proof. unfold lit; simpl. unfold Q2R. simpl. lra. Qed.

Lemma zero_0 : zero = 0.
Proof. apply lit_0. Qed.

Lemma lit_floor_pos : 0 < lit 0.0001.
Proof. unfold lit; simpl. unfold Q2R. simpl. lra. Qed.

Lemma affinity_element_pos distance : 0 < affinity_element distance.
Proof.
  unfold affinity_element. simpl. pose proof lit_floor_pos as Hpos.
  simpl in Hpos. destruct (Rlt_dec _ _); lra.
Qed.

Lemma fold_left_Rplus_acc (l : list R) (acc : R) :
  fold_left Rplus l acc = acc + fold_left Rplus l 0.
Proof.
  revert acc. induction l as [|x l IH]; intros acc; simpl; [lra|].
  rewrite (IH (acc + x)), (IH (0 + x)). lra.
Qed.

Lemma np_sum_fold (l : list R) : np_sum l = fold_left Rplus l 0.
Proof. unfold np_sum. by rewrite zero_0. Qed.

Lemma np_sum_cons (x : R) (l : list R) : np_sum (x :: l) = x + np_sum l.
Proof. rewrite !np_sum_fold. simpl. rewrite fold_left_Rplus_acc. lra. Qed.

Lemma np_sum_nil : np_sum ([] : list R) = 0.
Proof. by rewrite np_sum_fold. Qed.





Lemma gaussian_scale_pos sigmaa : 0 < sigmaa → 0 < gaussian_scale sigmaa.
Proof.
  intros Hs. unfold gaussian_scale. simpl. unfold Q2R. simpl.
  apply Rdiv_lt_0_compat; [lra|]. apply Rmult_lt_0_compat; [|done].
  apply sqrt_lt_R0. lra.
Qed.

Lemma final_probability_pos sigmaa kappaa distance dotProduct :
  0 < sigmaa → -1 < dotProduct →
  0 < final_probability sigmaa kappaa distance dotProduct.
Proof.
  intros Hs Hd. unfold final_probability, gaussian_density, outlier_level.
  pose proof (gaussian_scale_pos _ Hs) as Hscale.
  set (c := gaussian_scale sigmaa) in *.
  simpl. unfold Q2R. simpl.
  match goal with |- context [c * exp ?x / (c * exp ?x + c * exp ?y)] =>
    pose proof (exp_pos x); pose proof (exp_pos y);
    set (g := exp x) in *; set (l := exp y) in * end.
  apply Rmult_lt_0_compat; [|lra].
  apply Rdiv_lt_0_compat; nra.
Qed.

(** In exact arithmetic an element whose flag is below 0.5 ends with a
    probability above 0, for every input on which the deviation estimated
    is positive and the two normals are not opposite. *)
Theorem flagged_element_ends_positive features correspondingFeatures
    correspondingFlags kappaa (p p' : list R) sigmaa i flag
    feature correspondingFeature dotProduct :
  inlier_detection features correspondingFeatures correspondingFlags kappaa p
    = (Ok (), p') →
  estimated_sigma features correspondingFeatures correspondingFlags p
    = Ok sigmaa →
  0 < sigmaa →
  correspondingFlags !! i = Some flag →
  sltb flag (lit 0.5) = true →
  (i < nrows features)%nat →
  get_row features i = Ok feature →
  get_row correspondingFeatures i = Ok correspondingFeature →
  dot (slice_3_6 feature) (slice_3_6 correspondingFeature) = Ok dotProduct →
  -1 < dotProduct →
  ∃ x, p' !! i = Some x ∧ 0 < x.
Proof.
  intros Hrun Hsigma Hpos _ _ Hi Hf Hcf Hdot Hd.
  destruct (inlier_detection_formula _ _ _ _ _ _ Hrun)
    as (sigmaa' & Hsigma' & _ & Hformula).
  rewrite Hsigma in Hsigma'. injection Hsigma' as <-.
  destruct (Hformula i Hi) as (d & f & cf & dp & _ & Hf' & Hcf' & Hdot' & ->).
  rewrite Hf in Hf'. injection Hf' as <-.
  rewrite Hcf in Hcf'. injection Hcf' as <-.
  rewrite Hdot in Hdot'. injection Hdot' as <-.
  eexists. split; [done|]. by apply final_probability_pos.
Qed.


End ExactFacts.

(** * Further properties *)

(** ** The shape and the indices of [wknn_affinity] *)

Section wknn_more.
Context {T : Type} `{!Scalar T}.
Context (nearest_neighbours :
           ndarray T → ndarray T → Z → result (ndarray T * ndarray Z)).
Local Open Scope num_scope.


(** X1: a matrix returned has one row per source element and one column
    per target element. *)
Theorem wknn_affinity_shape features1 features2 k affinity :
  wknn_affinity nearest_neighbours features1 features2 k = Ok affinity →
  nrows affinity = nrows features1
  ∧ ncols affinity = nrows features2
  ∧ Forall (λ row, length row = nrows features2) (rows affinity).
Proof.
  unfold wknn_affinity. intros (raw & Hraw & [= <-])%bind_Ok.
  destruct (raw_affinity_shape _ _ _ _ _ Hraw) as [Hn Hm].
  split; [unfold normalize_rows, nrows in *; simpl; by rewrite length_map|].
  split; [done|]. unfold normalize_rows. simpl.
  apply Forall_fmap, Forall_lookup. intros i row Hrow. simpl. rewrite length_map.
  assert (Hi : i < nrows features1).
  { rewrite <- Hn. by eapply lookup_lt_Some. }
  unfold raw_affinity in Hraw.
  destruct (nearest_neighbours _ _ _) as [[distances neighbourIndices]|] eqn:Hnn;
    [|done].
  destruct (raw_affinity_row nearest_neighbours _ _ _ _ _ raw i Hnn) as
    (neighbours & row0 & _ & Hrow0 & Hscatter); [|done|].
  { unfold raw_affinity. by rewrite Hnn. }
  rewrite Hrow in Hrow0. injection Hrow0 as <-.
  apply scatter_neighbours_length in Hscatter. rewrite Hscatter.
  unfold zeros1. apply length_replicate.
Qed.

End wknn_more.

(** ** The objects and the shapes of [fuse_affinities] *)

Lemma bdim_broadcastable n m : is_ok (bdim n m) = true ↔ broadcastable n m.
Proof.
  unfold bdim, broadcastable. repeat case_decide; simpl; split; try done; tauto.
Qed.

Lemma bdim_Raise n m e : bdim n m = Raise e → e = ValueError ∧ ¬ broadcastable n m.
Proof.
  unfold bdim, broadcastable. repeat case_decide; try done. intros [= <-].
  split; [done|]. tauto.
Qed.

Section fuse_more.
Context {T : Type} `{!Scalar T}.
Local Open Scope num_scope.

Lemma alloc_frame (o : pyobj T) (w w' : world T) l :
  alloc o w = (Ok l, w') →
  stdout w' = stdout w
  ∧ mem w !! l = None
  ∧ mem w' !! l = Some o
  ∧ ∀ l' o', mem w !! l' = Some o' → mem w' !! l' = Some o'.
Proof.
  unfold alloc. intros [= <- <-]. simpl.
  assert (Hfresh : mem w !! fresh (dom (mem w)) = None).
  { apply not_elem_of_dom, is_fresh. }
  split; [done|]. split; [done|]. split; [by rewrite lookup_insert_eq|].
  intros l' o' Hl'. rewrite lookup_insert_ne; [done|]. intros <-. congruence.
Qed.

Lemma deref2_state (v : pyval T) (w w' : world T) r :
  deref2 v w = (r, w') → w' = w.
Proof. unfold deref2. repeat case_match; by intros [= _ <-]. Qed.

(** X3: whatever the three arguments are and however the call ends, every
    array object that exists at the call holds afterwards what it held, the
    one handed over as [affinityFused] included, and nothing is printed. *)
Theorem fuse_affinities_frame affinity12 affinity21 affinityFused (w w' : world T) r :
  fuse_affinities affinity12 affinity21 affinityFused w = (r, w') →
  stdout w' = stdout w
  ∧ ∀ l o, mem w !! l = Some o → mem w' !! l = Some o.
Proof.
  unfold fuse_affinities. unfold mbind at 1, mut_bind at 1.
  destruct (deref2 affinity12 w) as [[a12|e] w1] eqn:H1;
    apply deref2_state in H1 as ->; [|by intros [= _ <-]].
  unfold mbind at 1, mut_bind at 1.
  destruct (deref2 affinity21 w) as [[a21|e] w1] eqn:H2;
    apply deref2_state in H2 as ->; [|by intros [= _ <-]].
  unfold mbind at 1, mut_bind at 1, lift at 1.
  destruct (zip2 sadd a12 (transpose a21)) as [sum|e]; [|by intros [= _ <-]].
  unfold mbind at 1, mut_bind at 1.
  destruct (alloc (Arr2 sum) w) as [[l1|e] w1] eqn:Ha1; [|done].
  apply alloc_frame in Ha1 as (Hout1 & _ & _ & Hmem1).
  unfold mbind at 1, mut_bind at 1.
  destruct (deref2 (PRef l1) w1) as [[fused|e] w2] eqn:H3;
    apply deref2_state in H3 as ->.
  2:{ intros [= _ <-]. split; [done|]. exact Hmem1. }
  unfold mbind at 1, mut_bind at 1.
  destruct (alloc (Arr2 (normalize_rows fused)) w1) as [[l2|e] w2] eqn:Ha2; [|done].
  apply alloc_frame in Ha2 as (Hout2 & _ & _ & Hmem2).
  intros [= _ <-]. split; [congruence|]. intros l o Hl. by apply Hmem2, Hmem1.
Qed.

(** X4: called on two matrices, the routine ends well exactly when their
    shapes (r, c) and (r', c') agree up to NumPy's broadcasting: r with c'
    and c with r' are equal or one of them is 1.  Otherwise it raises
    [ValueError]. *)
Theorem fuse_affinities_shapes l12 l21 affinityFused a12 a21 (w : world T) :
  mem w !! l12 = Some (Arr2 a12) →
  mem w !! l21 = Some (Arr2 a21) →
  (broadcastable (nrows a12) (ncols a21) ∧ broadcastable (ncols a12) (nrows a21) →
   ∃ w', fuse_affinities (PRef l12) (PRef l21) affinityFused w = (Ok (PBool true), w'))
  ∧ (¬ (broadcastable (nrows a12) (ncols a21) ∧ broadcastable (ncols a12) (nrows a21)) →
     fuse_affinities (PRef l12) (PRef l21) affinityFused w = (Raise ValueError, w)).
Proof.
  intros H12 H21. destruct (transpose_shape a21) as [Hn Hm].
  destruct (zip2 sadd a12 (transpose a21)) as [sum|e] eqn:Hsum.
  - split; [intros _; eexists; by eapply fuse_affinities_run|].
    intros []. unfold zip2 in Hsum. rewrite Hn, Hm in Hsum.
    apply bind_Ok in Hsum as (n & Hr & (m & Hc & _)%bind_Ok).
    split; apply (proj1 (bdim_broadcastable _ _)); [by rewrite Hr|by rewrite Hc].
  - assert (He : e = ValueError
                 ∧ ¬ (broadcastable (nrows a12) (ncols a21)
                      ∧ broadcastable (ncols a12) (nrows a21))).
    { unfold zip2 in Hsum. rewrite Hn, Hm in Hsum.
      apply bind_Raise in Hsum as [Hr|(n & _ & [Hc|(m & _ & ?)]%bind_Raise)];
        [apply bdim_Raise in Hr as [-> Hr]|apply bdim_Raise in Hc as [-> Hc]|done];
        (split; [done|tauto]). }
    destruct He as [-> Hno]. split; [done|]. intros _.
    unfold fuse_affinities.
    unfold mbind at 1, mut_bind at 1. rewrite (deref2_Ok _ _ _ H12).
    unfold mbind at 1, mut_bind at 1. rewrite (deref2_Ok _ _ _ H21).
    by rewrite Hsum.
Qed.
End fuse_more.

(** ** The results and the errors of [affinity_to_correspondences] *)

Section correspondences_more.
Context {T : Type} `{!Scalar T}.
Local Open Scope num_scope.

(** X5: the arrays returned have one row, and one flag, per row of the
    affinity; the rows have the width of [features2]; and every flag
    returned is 1.0 or 0.0, whatever the blend was. *)
Theorem affinity_to_correspondences_shape features2 flags2 affinity
    flagRoundingLimit correspondingFeatures (correspondingFlags : list T) :
  affinity_to_correspondences features2 flags2 affinity flagRoundingLimit
    = Ok (correspondingFeatures, correspondingFlags) →
  nrows correspondingFeatures = nrows affinity
  ∧ ncols correspondingFeatures = ncols features2
  ∧ Forall (λ row, length row = ncols features2) (rows correspondingFeatures)
  ∧ length correspondingFlags = nrows affinity
  ∧ Forall (λ flag, flag = lit 1.0 ∨ flag = lit 0.0) correspondingFlags.
Proof.
  unfold affinity_to_correspondences, matmul, matvec.
  repeat case_decide; simpl; try done.
  intros [= <- <-]. unfold nrows. simpl. rewrite length_map.
  split; [done|]. split; [done|]. split.
  { apply Forall_fmap, Forall_true. intros row. simpl.
    unfold tabulate1. by rewrite length_map, length_seq. }
  rewrite round_flags_map, !length_map. split; [done|].
  apply Forall_fmap, Forall_fmap, Forall_true. intros row. simpl.
  unfold round_flag. case_match; auto.
Qed.

(** X6: the only error of the routine is the [ValueError] of a product
    whose inner dimensions differ: it is raised exactly when the affinity
    has not one column per row of [features2] and per entry of [flags2]. *)
Theorem affinity_to_correspondences_raises features2 (flags2 : list T) affinity
    flagRoundingLimit e :
  affinity_to_correspondences features2 flags2 affinity flagRoundingLimit = Raise e
  ↔ e = ValueError
    ∧ (ncols affinity ≠ nrows features2 ∨ ncols affinity ≠ length flags2).
Proof.
  unfold affinity_to_correspondences, matmul, matvec.
  repeat case_decide; simpl; split; try done.
  - intros [_ [?|?]]; done.
  - intros [= <-]. auto.
  - intros [-> _]. done.
  - intros [= <-]. auto.
  - intros [-> _]. done.
  - intros [= <-]. auto.
  - intros [-> _]. done.
Qed.
End correspondences_more.

(** ** The extent of [inlier_detection] *)

Section inlier_more.
Context {T : Type} `{!Scalar T}.
Local Open Scope num_scope.

(** What the flag gate leaves: 0.0 where the flag is below 0.5, the value
    that was there elsewhere. *)
Lemma flag_gate_spec correspondingFlags :
  ∀ i (p p' : list T),
    flag_gate i correspondingFlags p = (Ok (), p') →
    (∀ j, j < i → p' !! j = p !! j)
    ∧ (∀ t, p' !! (i + t)%nat
            = match correspondingFlags !! t with
              | Some flag => if flag <? lit 0.5 then Some (lit 0.0) else p !! (i + t)%nat
              | None => p !! (i + t)%nat
              end).
Proof.
  induction correspondingFlags as [|flag flags IH]; intros i p p'; simpl.
  - by intros [= <-].
  - intros (u & p1 & Hstep & Hrest)%mut_bind_Ok.
    destruct (IH _ _ _ Hrest) as [Hlow Hhigh]. split.
    + intros j Hj. rewrite Hlow by lia. destruct (flag <? lit 0.5).
      * apply write_probability_Ok in Hstep as [_ ->].
        apply list_lookup_insert_ne. lia.
      * by injection Hstep as _ <-.
    + intros [|t].
      * rewrite Nat.add_0_r. simpl. rewrite Hlow by lia. destruct (flag <? lit 0.5).
        -- apply write_probability_Ok in Hstep as [Hi ->].
           by apply list_lookup_insert_eq.
        -- by injection Hstep as _ <-.
      * simpl. rewrite <- Nat.add_succ_comm, Hhigh.
        assert (Hp1 : p1 !! (S i + t)%nat = p !! (S i + t)%nat).
        { destruct (flag <? lit 0.5).
          - apply write_probability_Ok in Hstep as [_ ->].
            apply list_lookup_insert_ne. lia.
          - by injection Hstep as _ <-. }
        by rewrite Hp1.
Qed.

(** X7: with no element ([features] has no row) the call never ends well:
    once the flags are applied to the probabilities it raises
    [ZeroDivisionError], and the array keeps the zeros the flags wrote. *)
Theorem inlier_detection_no_element features correspondingFeatures
    correspondingFlags kappaa (p p1 : list T) :
  nrows features = 0 →
  flag_gate 0 correspondingFlags p = (Ok (), p1) →
  inlier_detection features correspondingFeatures correspondingFlags kappaa p
  = (Raise ZeroDivisionError, p1)
  ∧ length p1 = length p
  ∧ ∀ i flag, correspondingFlags !! i = Some flag → (flag <? lit 0.5) = true →
      p1 !! i = Some (lit 0.0).
Proof.
  intros Hn Hgate. split; [|split].
  - unfold inlier_detection. rewrite Hn.
    unfold mbind at 1, mut_bind at 1. by rewrite Hgate.
  - by eapply flag_gate_length.
  - intros i flag Hi Hflag. destruct (flag_gate_spec _ _ _ _ Hgate) as [_ Hhigh].
    specialize (Hhigh i). simpl in Hhigh. by rewrite Hi, Hflag in Hhigh.
Qed.

(** X8: when the call ends well there is an element at least, every
    element has a row of [correspondingFeatures] and an entry of
    [inlierProbability], the array keeps its length, and an entry past
    the last element holds 0.0 if its flag is below 0.5 and what it held
    otherwise. *)
Theorem inlier_detection_extent features correspondingFeatures
    correspondingFlags kappaa (p p' : list T) :
  inlier_detection features correspondingFeatures correspondingFlags kappaa p
    = (Ok (), p') →
  0 < nrows features
  ∧ nrows features ≤ nrows correspondingFeatures
  ∧ nrows features ≤ length p
  ∧ length p' = length p
  ∧ ∀ i, nrows features ≤ i →
      p' !! i = match correspondingFlags !! i with
                | Some flag => if flag <? lit 0.5 then Some (lit 0.0) else p !! i
                | None => p !! i
                end.
Proof.
  unfold inlier_detection.
  intros (u & p1 & Hgate & (sums & p2 & Hsums
          & (u' & p3 & Hzero & (u'' & p4 & Hdist & Hnormal)%mut_bind_Ok)%mut_bind_Ok)%mut_bind_Ok)%mut_bind_Ok.
  destruct u, u''. pose proof (sigma_sums_state _ _ _ _ _ _ _ _ Hsums) as ->.
  destruct (decide (nrows features = 0)) as [Hn|Hn]; [done|].
  injection Hzero as _ <-.
  destruct (distance_pass_spec _ _ _ _ _ _ _ Hdist (NoDup_seq _ _))
    as (Hlen1 & Hin1 & Hout1).
  destruct (normal_pass_spec _ _ _ _ _ Hnormal (NoDup_seq _ _))
    as (Hlen2 & Hin2 & Hout2).
  pose proof (flag_gate_length _ _ _ _ Hgate) as Hlen0.
  assert (Hlast : pred (nrows features) ∈ seq 0 (nrows features))
    by (rewrite elem_of_seq; lia).
  split; [lia|]. split; [|split; [|split]].
  - destruct (Hin1 _ Hlast) as (d & Hd & _). unfold residual in Hd.
    apply bind_Ok in Hd as (cf & Hcf%of_option_Ok & _).
    apply lookup_lt_Some in Hcf. unfold nrows in *. lia.
  - destruct (Hin1 _ Hlast) as (d & _ & Hp4). apply lookup_lt_Some in Hp4. lia.
  - lia.
  - intros i Hi.
    assert (Hel : i ∉ seq 0 (nrows features)) by (rewrite elem_of_seq; lia).
    rewrite (Hout2 _ Hel), (Hout1 _ Hel).
    destruct (flag_gate_spec _ _ _ _ Hgate) as [_ Hhigh]. exact (Hhigh i).
Qed.
End inlier_more.

(** ** The objects [rigid_transformation] changes *)

Section frames_facts.
Context {T : Type} `{!Scalar T}.
Context (keep : loc → Prop).
Local Open Scope num_scope.

Lemma untouched_same {A} (m : Mut (world T) A) :
  (∀ w r w', m w = (r, w') → mem w' = mem w) → untouched keep m.
Proof. intros Hm w r w' Hrun l o _ Hl. by rewrite (Hm _ _ _ Hrun). Qed.

Lemma untouched_ret {A} (a : A) : untouched keep (mret a : Mut (world T) A).
Proof. apply untouched_same. by intros w r w' [= _ <-]. Qed.

Lemma untouched_lift {A} (r : result A) :
  untouched keep (lift r : Mut (world T) A).
Proof. apply untouched_same. by intros w r' w' [= _ <-]. Qed.

Lemma untouched_bind {A B} (m : Mut (world T) A) (f : A → Mut (world T) B) :
  untouched keep m → (∀ a, untouched keep (f a)) → untouched keep (m ≫= f).
Proof.
  intros Hm Hf w r w' Hrun l o Hl Ho. unfold mbind, mut_bind in Hrun.
  destruct (m w) as [[a|e] w1] eqn:Hmw.
  - eapply Hf; [exact Hrun|done|]. by eapply Hm.
  - injection Hrun as _ <-. by eapply Hm.
Qed.

Lemma untouched_bind_lift {A B} (r : result A) (f : A → Mut (world T) B) :
  (∀ a, r = Ok a → untouched keep (f a)) → untouched keep (lift r ≫= f).
Proof.
  intros Hf w r' w' Hrun. unfold mbind, mut_bind, lift in Hrun.
  destruct r as [a|e].
  - by eapply Hf.
  - injection Hrun as _ <-. by intros.
Qed.

Lemma untouched_subscript (v : pyval T) i : untouched keep (subscript v i).
Proof.
  apply untouched_same. unfold subscript. intros w r w'.
  repeat case_match; by intros [= _ <-].
Qed.

Lemma untouched_subscript_column (v : pyval T) j :
  untouched keep (subscript_column v j).
Proof.
  apply untouched_same. unfold subscript_column. intros w r w'.
  repeat case_match; by intros [= _ <-].
Qed.

Lemma untouched_print (v : list T) : untouched keep (print v).
Proof. apply untouched_same. unfold print. by intros w r w' [= _ <-]. Qed.

Lemma untouched_copy (v : pyval T) : untouched keep (copy v).
Proof.
  intros w r w'. unfold copy, alloc.
  repeat case_match; intros [= _ <-]; try done. simpl.
  intros l' o' _ Hl'. rewrite lookup_insert_ne; [done|].
  intros <-. by apply elem_of_dom_2, is_fresh in Hl'.
Qed.

Lemma untouched_assign_column (v : pyval T) j x :
  (∀ l, keep l → v ≠ PRef l) → untouched keep (assign_column v j x).
Proof.
  intros Hv w r w'. unfold assign_column.
  repeat case_match; intros [= _ <-]; try done. simpl.
  intros l' o' Hkeep Hl'. rewrite lookup_insert_ne; [done|].
  intros <-. by eapply Hv.
Qed.
End frames_facts.

Section rigid_transformation_frame.
Context {T : Type} `{!Scalar T}.
Context (eig : ndarray T → result (list T * ndarray T)).
Context (globals locals : gmap string (pyval T)).
Context (keep : loc → Prop).
Context (Hkeep : ∀ l, keep l →
           lookup_name locals globals "floatingPositions" ≠ Ok (PRef l)).
Local Open Scope num_scope.

Ltac frame_step :=
  first
    [ apply untouched_ret
    | apply untouched_lift
    | apply untouched_subscript
    | apply untouched_subscript_column
    | apply untouched_print
    | apply untouched_copy
    | apply untouched_assign_column; intros ? ? ->; eapply Hkeep; eassumption
    | apply untouched_bind_lift; intros
    | apply untouched_bind; [|intros]
    | match goal with
      | p : (_ * _)%type |- _ => destruct p
      | b : bool |- _ => destruct b
      | |- context [decide ?P] => destruct (decide P)
      end ].

Lemma centroid_loop_untouched indices :
  ∀ fc cc ws, untouched keep (centroid_loop globals locals indices fc cc ws).
Proof using Hkeep.
  induction indices as [|i indices IH]; intros fc cc ws; simpl.
  - apply untouched_ret.
  - unfold name. repeat first [apply IH|frame_step].
Qed.

Lemma cross_variance_loop_untouched indices :
  ∀ cv, untouched keep (cross_variance_loop globals locals indices cv).
Proof using Hkeep.
  induction indices as [|i indices IH]; intros cv; simpl.
  - apply untouched_ret.
  - unfold name. repeat first [apply IH|frame_step].
Qed.

Lemma scale_loop_untouched rot fc cc indices :
  ∀ num den,
    untouched keep (scale_loop globals locals rot fc cc indices num den).
Proof using Hkeep.
  induction indices as [|i indices IH]; intros num den; simpl.
  - apply untouched_ret.
  - unfold name. repeat first [apply IH|frame_step].
Qed.

Lemma apply_loop_untouched transformationMatrix indices :
  ∀ fp, untouched keep (apply_loop globals locals transformationMatrix indices fp).
Proof using Hkeep.
  induction indices as [|i indices IH]; intros fp; simpl.
  - apply untouched_ret.
  - unfold name. repeat first [apply IH|frame_step].
Qed.

Lemma rigid_transformation_body_untouched :
  untouched keep (rigid_transformation_body eig globals locals).
Proof using Hkeep.
  unfold rigid_transformation_body, scale_factor, name.
  repeat first
    [ apply centroid_loop_untouched
    | apply cross_variance_loop_untouched
    | apply scale_loop_untouched
    | apply apply_loop_untouched
    | frame_step ].
Qed.
End rigid_transformation_frame.

Section rigid_transformation_frame_facts.
Context {T : Type} `{!Scalar T}.
Context (eig : ndarray T → result (list T * ndarray T)).
Context (globals : gmap string (pyval T)).

(** X20: however a call ends, the only array object it can have changed
    is the one the global name [floatingPositions] is bound to: every
    other object that exists at the call, the arrays handed over as
    arguments included, holds afterwards what it held. *)
Theorem rigid_transformation_changes_floatingPositions_only
    (features correspondingFeatures weights : pyval T) (w w' : world T) r l o :
  rigid_transformation eig globals features correspondingFeatures weights w
    = (r, w') →
  mem w !! l = Some o →
  globals !! "floatingPositions"%string ≠ Some (PRef l) →
  mem w' !! l = Some o.
Proof.
  intros Hrun Hl Hne.
  eapply (rigid_transformation_body_untouched eig globals
            (entry_locals features correspondingFeatures weights)
            (λ l', l' = l)); [|exact Hrun|done|done].
  intros l' -> Hlook. apply Hne. unfold lookup_name in Hlook.
  rewrite entry_locals_free in Hlook by (unfold free_names; set_solver).
  by apply of_option_Ok in Hlook.
Qed.
End rigid_transformation_frame_facts.

(** ** What [rigid_transformation] prints *)

Section output_facts.
Context {T : Type} `{!Scalar T}.
Local Open Scope num_scope.

Lemma prints_same {A} (m : Mut (world T) A) :
  (∀ w r w', m w = (r, w') → stdout w' = stdout w) → prints 0 m.
Proof. intros Hm w a w' Hrun. exists []. by rewrite (Hm _ _ _ Hrun). Qed.

Lemma prints_ret {A} (a : A) : prints 0 (mret a : Mut (world T) A).
Proof. apply prints_same. by intros w r w' [= _ <-]. Qed.

Lemma prints_lift {A} (r : result A) : prints 0 (lift r : Mut (world T) A).
Proof. apply prints_same. by intros w r' w' [= _ <-]. Qed.

Lemma prints_bind {A B} k (m : Mut (world T) A) (f : A → Mut (world T) B) :
  prints 0 m → (∀ a, prints k (f a)) → prints k (m ≫= f).
Proof.
  intros Hm Hf w b w' (a & w1 & Hrun & Hrest)%mut_bind_Ok.
  destruct (Hm _ _ _ Hrun) as (out & Hout & Hlen).
  destruct out; [|done]. simpl in Hout. rewrite <- Hout. by eapply Hf.
Qed.

Lemma prints_bind_last {A B} k (m : Mut (world T) A) (f : A → Mut (world T) B) :
  prints k m → (∀ a, prints 0 (f a)) → prints k (m ≫= f).
Proof.
  intros Hm Hf w b w' (a & w1 & Hrun & Hrest)%mut_bind_Ok.
  destruct (Hf _ _ _ _ Hrest) as (out & Hout & Hlen).
  destruct out; [|done]. simpl in Hout. rewrite Hout. by eapply Hm.
Qed.

Lemma prints_bind_lift {A B} k (r : result A) (f : A → Mut (world T) B) :
  (∀ a, r = Ok a → prints k (f a)) → prints k (lift r ≫= f).
Proof.
  intros Hf w b w' (a & w1 & [-> ->]%lift_Ok & Hrest)%mut_bind_Ok.
  by eapply Hf.
Qed.

Lemma prints_bind_print {B} k (v : list T) (f : unit → Mut (world T) B) :
  (∀ a, prints k (f a)) → prints (S k) (print v ≫= f).
Proof.
  intros Hf w b w' (a & w1 & Hrun & Hrest)%mut_bind_Ok.
  unfold print in Hrun. injection Hrun as _ <-.
  destruct (Hf _ _ _ _ Hrest) as (out & Hout & Hlen). simpl in Hout.
  exists (out ++ [v]). split.
  - by rewrite <- app_assoc.
  - rewrite length_app. simpl. lia.
Qed.

Lemma prints_subscript (v : pyval T) i : prints 0 (subscript v i).
Proof.
  apply prints_same. unfold subscript. intros w r w'.
  repeat case_match; by intros [= _ <-].
Qed.

Lemma prints_subscript_column (v : pyval T) j : prints 0 (subscript_column v j).
Proof.
  apply prints_same. unfold subscript_column. intros w r w'.
  repeat case_match; by intros [= _ <-].
Qed.

Lemma prints_copy (v : pyval T) : prints 0 (copy v).
Proof.
  apply prints_same. unfold copy, alloc. intros w r w'.
  repeat case_match; by intros [= _ <-].
Qed.

Lemma prints_assign_column (v : pyval T) j x : prints 0 (assign_column v j x).
Proof.
  apply prints_same. unfold assign_column. intros w r w'.
  repeat case_match; by intros [= _ <-].
Qed.
End output_facts.

Section rigid_transformation_output.
Context {T : Type} `{!Scalar T}.
Context (eig : ndarray T → result (list T * ndarray T)).
Context (globals locals : gmap string (pyval T)).
Local Open Scope num_scope.

Ltac output_step :=
  first
    [ apply prints_ret
    | apply prints_lift
    | apply prints_subscript
    | apply prints_subscript_column
    | apply prints_copy
    | apply prints_assign_column
    | apply prints_bind_print; intros
    | apply prints_bind_lift; intros
    | apply prints_bind; [|intros]
    | match goal with
      | p : (_ * _)%type |- _ => destruct p
      | b : bool |- _ => destruct b
      | |- context [decide ?P] => destruct (decide P)
      end ].

Lemma centroid_loop_prints indices :
  ∀ fc cc ws, prints 0 (centroid_loop globals locals indices fc cc ws).
Proof.
  induction indices as [|i indices IH]; intros fc cc ws; simpl.
  - apply prints_ret.
  - unfold name. repeat first [apply IH|output_step].
Qed.

Lemma cross_variance_loop_prints indices :
  ∀ cv, prints 0 (cross_variance_loop globals locals indices cv).
Proof.
  induction indices as [|i indices IH]; intros cv; simpl.
  - apply prints_ret.
  - unfold name. repeat first [apply IH|output_step].
Qed.

Lemma scale_loop_prints rot fc cc indices :
  ∀ num den, prints 0 (scale_loop globals locals rot fc cc indices num den).
Proof.
  induction indices as [|i indices IH]; intros num den; simpl.
  - apply prints_ret.
  - unfold name. repeat first [apply IH|output_step].
Qed.

Lemma apply_loop_prints transformationMatrix indices :
  ∀ fp, prints (2 * length indices)
          (apply_loop globals locals transformationMatrix indices fp).
Proof.
  induction indices as [|i indices IH]; intros fp.
  - apply prints_ret.
  - replace (2 * length (i :: indices))%nat with (S (S (2 * length indices)))
      by (simpl; lia).
    cbn [apply_loop]. unfold name. repeat first [apply IH|output_step].
Qed.

Lemma rigid_transformation_body_prints numFloatingVertices indices :
  lookup_name locals globals "numFloatingVertices" = Ok numFloatingVertices →
  range numFloatingVertices = Ok indices →
  prints (2 * length indices) (rigid_transformation_body eig globals locals).
Proof.
  intros Hn Hrange.
  unfold rigid_transformation_body, scale_factor, name. rewrite Hn.
  repeat first
    [ match goal with
      | H : Ok numFloatingVertices = Ok _ |- _ => injection H as <-
      | H : range numFloatingVertices = Ok _ |- _ =>
          rewrite Hrange in H; injection H as <-
      end
    | apply centroid_loop_prints
    | apply cross_variance_loop_prints
    | apply scale_loop_prints
    | apply prints_bind_last; [apply apply_loop_prints|intros; apply prints_ret]
    | output_step ].
Qed.
End rigid_transformation_output.

Section rigid_transformation_output_facts.
Context {T : Type} `{!Scalar T}.
Context (eig : ndarray T → result (list T * ndarray T)).
Context (globals : gmap string (pyval T)).

(** X26: a call that ends well has printed two arrays for every vertex:
    what was on the standard output is still there, with twice
    [numFloatingVertices] arrays after it. *)
Theorem rigid_transformation_prints_two_arrays_per_vertex
    (features correspondingFeatures weights : pyval T) (w w' : world T) v :
  rigid_transformation eig globals features correspondingFeatures weights w
    = (Ok v, w') →
  ∃ numFloatingVertices indices out,
    globals !! "numFloatingVertices"%string = Some numFloatingVertices
    ∧ range numFloatingVertices = Ok indices
    ∧ stdout w' = out ++ stdout w
    ∧ length out = 2 * length indices.
Proof.
  intros Hrun. pose proof Hrun as Hstart.
  unfold rigid_transformation, rigid_transformation_body in Hstart.
  apply mut_bind_Ok in Hstart
    as (n & w1 & [Hn ->]%lift_Ok & (indices & w2 & [Hrange ->]%lift_Ok & _)%mut_bind_Ok).
  destruct (rigid_transformation_body_prints eig globals _ _ _ Hn Hrange _ _ _ Hrun)
    as (out & Hout & Hlen).
  exists n, indices, out. split; [|done].
  unfold lookup_name in Hn.
  rewrite entry_locals_free in Hn by (unfold free_names; set_solver).
  by apply of_option_Ok in Hn.
Qed.
End rigid_transformation_output_facts.

(** * Further properties in binary64 arithmetic *)

Module Float64More.
Import Floats Float64 Float64Samples Float64Facts.
Local Open Scope float_scope.
#[local] Set Warnings "-inexact-float".

Lemma ltb_nan_r (x : float) : PrimFloat.ltb x nan = false.
Proof.
  rewrite ltb_spec. replace (Prim2SF nan) with S754_nan by reflexivity.
  unfold SFltb, SFcompare. by destruct (Prim2SF x) as [s|s| |s m e]; try destruct s.
Qed.

Lemma ltb_nan_l (x : float) : PrimFloat.ltb nan x = false.
Proof.
  rewrite ltb_spec. replace (Prim2SF nan) with S754_nan by reflexivity.
  reflexivity.
Qed.

Section with_libm.
Context {libm : Libm}.

Lemma np_sum_zeros_binary64 n : np_sum (zeros1 n) = 0.
Proof.
  unfold np_sum, zeros1.
  assert (H : ∀ acc, acc = 0 → fold_left sadd (replicate n zero) acc = 0).
  { induction n as [|n IH]; intros acc ->; simpl; [done|].
    apply IH. by vm_compute. }
  apply H. by vm_compute.
Qed.

Lemma zeros_over_zero n : map (λ x, x / 0) (zeros1 n) = replicate n nan.
Proof.
  unfold zeros1. induction n as [|n IH]; [done|].
  cbn [map replicate]. rewrite IH. f_equal.
Qed.

(** X21: in binary64, an element to which the oracle gives no neighbour
    (k = 0) gets a row of NaN: its row of zeros is divided by its sum,
    and 0.0 / 0.0 is NaN. *)
Theorem row_without_neighbour_is_nan nearest_neighbours
    (features1 features2 : ndarray float) (k : Z) distances neighbourIndices
    affinity i :
  nearest_neighbours features1 features2 k = Ok (distances, neighbourIndices) →
  wknn_affinity nearest_neighbours features1 features2 k = Ok affinity →
  (i < nrows features1)%nat →
  rows neighbourIndices !! i = Some [] →
  rows affinity !! i = Some (replicate (nrows features2) nan).
Proof.
  intros Hnn Hrun Hi Hn. unfold wknn_affinity in Hrun.
  apply bind_Ok in Hrun as (raw & Hraw & [= <-]).
  destruct (raw_affinity_row _ _ _ _ _ _ _ _ Hnn Hraw Hi)
    as (neighbours & row & Hn' & Hrow & Hscatter).
  unfold get_row in Hn'. rewrite Hn in Hn'. injection Hn' as <-.
  injection Hscatter as <-.
  unfold normalize_rows. simpl. rewrite list_lookup_fmap, Hrow. simpl.
  by rewrite np_sum_zeros_binary64, zeros_over_zero.
Qed.

(** X22: in binary64, a blended flag that is NaN (a row of the affinity
    that is NaN, say) is rounded to 0.0, and with a limit that is NaN
    every flag is. *)
Theorem nan_flag_is_rounded_to_zero features2 flags2 affinity flagRoundingLimit
    correspondingFeatures correspondingFlags blended i flag :
  affinity_to_correspondences features2 flags2 affinity flagRoundingLimit
    = Ok (correspondingFeatures, correspondingFlags) →
  matvec affinity flags2 = Ok blended →
  blended !! i = Some flag →
  flag = nan ∨ flagRoundingLimit = nan →
  correspondingFlags !! i = Some 0.
Proof.
  unfold affinity_to_correspondences.
  intros (cf & _ & (blended' & Hblended & [= _ <-])%bind_Ok)%bind_Ok.
  intros Hb Hflag Hnan. rewrite Hblended in Hb. injection Hb as ->.
  rewrite round_flags_map, list_lookup_fmap, Hflag. simpl. f_equal.
  unfold round_flag. simpl.
  destruct Hnan as [-> | ->]; by rewrite ?ltb_nan_r, ?ltb_nan_l.
Qed.
End with_libm.

Section no_vertex.
Context {libm : Libm}.

(** X25: in binary64, with no vertex ([numFloatingVertices] is 0) the
    centroids are 0.0 / 0.0: the eigensolver is handed a matrix of NaN,
    and the call ends with the error the solver raises on it, the world
    untouched. *)
Theorem no_vertex_gives_nan_to_eig eig (globals : gmap string (pyval float))
    features correspondingFeatures weights (w : world float) e :
  globals !! "numFloatingVertices"%string = Some (PInt 0) →
  eig nan_matrix = Raise e →
  rigid_transformation eig globals features correspondingFeatures weights w
  = (Raise e, w).
Proof.
  intros Hn Heig. unfold rigid_transformation, rigid_transformation_body.
  rewrite !name_entry_locals by (unfold free_names; set_solver).
  rewrite Hn. simpl.
  unfold mbind, mut_bind, lift. simpl.
  match goal with |- context [eig ?Q] =>
    replace Q with nan_matrix by (destruct libm; vm_compute; reflexivity) end.
  by rewrite Heig.
Qed.

End no_vertex.

Lemma no_vertex_gives_nan_to_eig_witness :
  rigid_transformation (Scalar0 := sample_scalar) (λ _, Raise LinAlgError)
    {["numFloatingVertices"%string := PInt 0]} PNone PNone PNone script_world
  = (Raise LinAlgError, script_world).
Proof.
  apply (@no_vertex_gives_nan_to_eig sample_libm); reflexivity.
Defined.

(** ** Runs *)

#[local] Existing Instance sample_libm.

Lemma wknn_affinity_shape_witness :
  ∃ affinity,
    wknn_affinity (fixed_oracle coincident_distances coincident_indices)
      coincident_source coincident_target 2 = Ok affinity
    ∧ nrows affinity = nrows coincident_source
    ∧ ncols affinity = nrows coincident_target
    ∧ Forall (λ row, length row = nrows coincident_target) (rows affinity).
Proof.
  eexists. split; [vm_compute; reflexivity|].
  apply (wknn_affinity_shape
           (fixed_oracle coincident_distances coincident_indices)
           coincident_source coincident_target 2).
  vm_compute. reflexivity.
Defined.


Lemma fuse_affinities_frame_witness :
  stdout (fuse_affinities (PRef 0%nat) (PRef 1%nat) (PRef 2%nat) fuse_world).2
  = stdout fuse_world
  ∧ mem (fuse_affinities (PRef 0%nat) (PRef 1%nat) (PRef 2%nat) fuse_world).2
      !! 2%nat = Some (Arr2 fuse_out).
Proof.
  destruct (fuse_affinities_frame (PRef 0%nat) (PRef 1%nat) (PRef 2%nat)
              fuse_world _ _ (surjective_pairing _)) as [Hout Hmem].
  split; [exact Hout|]. apply Hmem. reflexivity.
Defined.

Lemma fuse_affinities_shapes_witness :
  mem fuse_world !! 0%nat = Some (Arr2 fuse_a12)
  ∧ mem fuse_world !! 2%nat = Some (Arr2 fuse_out)
  ∧ ∃ w', fuse_affinities (PRef 0%nat) (PRef 2%nat) PNone fuse_world
          = (Ok (PBool true), w').
Proof.
  split; [reflexivity|]. split; [reflexivity|].
  apply (fuse_affinities_shapes 0%nat 2%nat PNone fuse_a12 fuse_out fuse_world);
    [reflexivity|reflexivity|].
  split; left; reflexivity.
Defined.

Lemma affinity_to_correspondences_shape_witness :
  ∃ correspondingFeatures correspondingFlags,
    affinity_to_correspondences blend_features blend_flags blend_affinity 0.9
    = Ok (correspondingFeatures, correspondingFlags)
    ∧ nrows correspondingFeatures = nrows blend_affinity
    ∧ length correspondingFlags = nrows blend_affinity
    ∧ Forall (λ flag, flag = lit 1.0 ∨ flag = lit 0.0) correspondingFlags.
Proof.
  eexists _, _. split; [vm_compute; reflexivity|].
  destruct (affinity_to_correspondences_shape blend_features blend_flags
              blend_affinity 0.9 _ _ eq_refl) as (Hn & _ & _ & Hlen & Hflags).
  split; [exact Hn|]. split; [exact Hlen|exact Hflags].
Defined.

Lemma inlier_detection_no_element_witness :
  nrows (NdArray 6 [] : ndarray float) = 0%nat
  ∧ flag_gate 0 [0] [1] = (Ok (), [0])
  ∧ inlier_detection (NdArray 6 []) gate_corresponding [0] 3 [1]
    = (Raise ZeroDivisionError, [0]).
Proof.
  split; [reflexivity|]. split; [vm_compute; reflexivity|].
  apply (inlier_detection_no_element (NdArray 6 []) gate_corresponding [0] 3
           [1] [0]); [reflexivity|vm_compute; reflexivity].
Defined.

Lemma inlier_detection_extent_witness :
  ∃ p', inlier_detection gate_features gate_corresponding [1; 1; 0] 3 [1; 1; 1]
        = (Ok (), p')
        ∧ length p' = 3%nat
        ∧ p' !! 2%nat = Some 0.
Proof.
  pose (run := inlier_detection gate_features gate_corresponding
                 [1; 1; 0] 3 [1; 1; 1]).
  assert (Hrun : run = (Ok (), run.2)) by (vm_compute; reflexivity).
  exists run.2. split; [exact Hrun|].
  destruct (inlier_detection_extent gate_features gate_corresponding
              [1; 1; 0] 3 [1; 1; 1] _ Hrun) as (_ & _ & _ & Hlen & Hrest).
  split; [exact Hlen|]. apply (Hrest 2%nat). unfold nrows. simpl. lia.
Defined.

Lemma rigid_transformation_changes_floatingPositions_only_witness :
  mem (rigid_transformation identity_eig script_globals
         (PRef 0%nat) (PRef 1%nat) (PRef 2%nat) script_world).2 !! 1%nat
  = Some (Arr2 (NdArray 3 [[2; 1; 1]; [0; 1; 0]; [0; 0; 1]])).
Proof.
  apply (rigid_transformation_changes_floatingPositions_only identity_eig
           script_globals (PRef 0%nat) (PRef 1%nat) (PRef 2%nat) script_world
           _ _ 1%nat _ (surjective_pairing _)); [reflexivity|].
  vm_compute. discriminate.
Defined.

Lemma rigid_transformation_prints_two_arrays_per_vertex_witness :
  ∃ out,
    stdout (rigid_transformation identity_eig script_globals
              (PRef 0%nat) (PRef 1%nat) (PRef 2%nat) script_world).2
    = out ++ stdout script_world
    ∧ length out = 6%nat.
Proof.
  pose (run := rigid_transformation identity_eig script_globals
                 (PRef 0%nat) (PRef 1%nat) (PRef 2%nat) script_world).
  assert (Hrun : run = (Ok PNone, run.2)) by (vm_compute; reflexivity).
  destruct (rigid_transformation_prints_two_arrays_per_vertex identity_eig
              script_globals _ _ _ _ _ _ Hrun)
    as (n & indices & out & Hn & Hrange & Hout & Hlen).
  exists out. split; [exact Hout|].
  injection Hn as <-. injection Hrange as <-. exact Hlen.
Defined.

Lemma row_without_neighbour_is_nan_witness :
  ∃ affinity,
    wknn_affinity (fixed_oracle (NdArray 0 [[]]) (NdArray 0 [[]]))
      coincident_source coincident_target 0 = Ok affinity
    ∧ rows affinity !! 0%nat = Some [nan; nan].
Proof.
  eexists. split; [vm_compute; reflexivity|].
  apply (row_without_neighbour_is_nan
           (fixed_oracle (NdArray 0 [[]]) (NdArray 0 [[]]))
           coincident_source coincident_target 0 (NdArray 0 [[]]) (NdArray 0 [[]]));
    [reflexivity|vm_compute; reflexivity|unfold nrows; simpl; lia|reflexivity].
Defined.

Lemma nan_flag_is_rounded_to_zero_witness :
  ∃ correspondingFeatures correspondingFlags,
    affinity_to_correspondences blend_features blend_flags
      (NdArray 2 [[nan; nan]]) 0.9
    = Ok (correspondingFeatures, correspondingFlags)
    ∧ correspondingFlags !! 0%nat = Some 0.
Proof.
  eexists _, _. split; [vm_compute; reflexivity|].
  eapply (nan_flag_is_rounded_to_zero blend_features blend_flags
           (NdArray 2 [[nan; nan]]) 0.9 _ _ [nan] 0%nat nan);
    [vm_compute; reflexivity|vm_compute; reflexivity|reflexivity|by left].
Defined.
End Float64More.

(** * Further properties in exact arithmetic *)

Module ExactMore.
Import Reals Lra Exact ExactSamples ExactFacts.
Local Open Scope R_scope.
#[local] Existing Instance real_scalar.

(** ** The weights of [wknn_affinity] *)

Lemma np_sum_insert (row : list R) pos old x :
  row !! pos = Some old → np_sum (<[pos := x]> row) = np_sum row - old + x.
Proof.
  revert pos. induction row as [|y row IH]; intros [|pos]; simpl; try done.
  - intros [= ->]. rewrite !np_sum_cons. lra.
  - intros Hpos. rewrite !np_sum_cons, (IH _ Hpos). lra.
Qed.

Lemma np_sum_zeros n : np_sum (zeros1 n) = 0.
Proof.
  unfold zeros1. induction n as [|n IH]; [apply np_sum_nil|].
  change (replicate (S n) zero) with (zero :: replicate n (zero : R)).
  rewrite np_sum_cons, IH, zero_0. lra.
Qed.

(** With neighbours at positions that differ and hold 0, the loop adds
    the affinity of each to the sum of the row. *)
Lemma scatter_neighbours_sum distances i neighbours :
  ∀ j (row row' : list R),
    scatter_neighbours distances i j neighbours row = Ok row' →
    NoDup (map (np_index (length row)) neighbours) →
    (∀ idx pos, idx ∈ neighbours → np_index (length row) idx = Ok pos →
                row !! pos = Some 0) →
    ∃ nearest,
      length nearest = length neighbours
      ∧ (∀ t d, nearest !! t = Some d → get2 distances i (j + t)%nat = Ok d)
      ∧ np_sum row' = np_sum row + np_sum (map affinity_element nearest).
Proof.
  induction neighbours as [|idx neighbours IH]; intros j row row'; simpl.
  - intros [= <-] _ _. exists []. split; [done|]. split; [done|].
    simpl. rewrite np_sum_nil. lra.
  - intros (d & Hd & (pos & Hpos & Hrest)%bind_Ok)%bind_Ok.
    intros [Hfresh Hnd]%NoDup_cons Hzero.
    destruct (IH _ _ _ Hrest) as (nearest & Hlen & Hget & Hsum).
    + by rewrite length_insert.
    + rewrite length_insert. intros idx' pos' Hin Hpos'.
      rewrite list_lookup_insert_ne.
      * apply (Hzero idx'); [by right|done].
      * intros <-. apply Hfresh. rewrite Hpos.
        apply list_elem_of_fmap. exists idx'. by rewrite Hpos'.
    + exists (d :: nearest). split; [simpl; by rewrite Hlen|]. split.
      * intros [|t] d'; simpl.
        -- intros [= <-]. by rewrite Nat.add_0_r.
        -- intros Ht. rewrite <- Nat.add_succ_comm. by apply Hget.
      * rewrite Hsum. simpl. rewrite np_sum_cons.
        rewrite (np_sum_insert _ _ 0); [lra|].
        apply (Hzero idx); [by left|done].
Qed.

(** The distances the loop reads are the first of the row of distances. *)
Lemma nearest_prefix (distances : ndarray R) i (row nearest : list R) :
  rows distances !! i = Some row →
  (∀ t d, nearest !! t = Some d → get2 distances i (0 + t)%nat = Ok d) →
  nearest = take (length nearest) row.
Proof.
  intros Hrow Hget. apply list_eq. intros t.
  destruct (nearest !! t) as [d|] eqn:Ht.
  - specialize (Hget _ _ Ht). unfold get2, get_row in Hget. rewrite Hrow in Hget.
    simpl in Hget. apply of_option_Ok in Hget.
    rewrite lookup_take_lt; [done|]. by eapply lookup_lt_Some.
  - apply lookup_ge_None in Ht. symmetry. apply lookup_ge_None.
    rewrite length_take. lia.
Qed.

Section weights.
Context (nearest_neighbours :
           ndarray R → ndarray R → Z → result (ndarray R * ndarray Z)).
Context (features1 features2 : ndarray R) (k : Z).
Context (distances : ndarray R) (neighbourIndices : ndarray Z).
Context (affinity : ndarray R).
Context (Hnn : nearest_neighbours features1 features2 k
               = Ok (distances, neighbourIndices)).
Context (Hrun : wknn_affinity nearest_neighbours features1 features2 k
                = Ok affinity).
Context (i : nat) (neighbours : list Z) (nearest : list R).
Context (Hi : (i < nrows features1)%nat).
Context (Hneighbours : rows neighbourIndices !! i = Some neighbours).
Context (Hnearest : rows distances !! i = Some nearest).

(** The total weight of the neighbours of element [i]. *)
Local Abbreviation total :=
  (np_sum (map affinity_element (take (length neighbours) nearest))).

Lemma wknn_affinity_row_weights :
  NoDup (map (np_index (nrows features2)) neighbours) →
  (∀ t idx d pos,
     neighbours !! t = Some idx → nearest !! t = Some d →
     np_index (nrows features2) idx = Ok pos →
     get2 affinity i pos = Ok (affinity_element d / total))
  ∧ (∀ pos, (pos < nrows features2)%nat →
       (∀ idx, idx ∈ neighbours → np_index (nrows features2) idx ≠ Ok pos) →
       get2 affinity i pos = Ok 0).
Proof using Hi Hnearest Hneighbours Hnn Hrun.
  intros Hnd. unfold wknn_affinity in Hrun.
  apply bind_Ok in Hrun as (raw & Hraw & [= <-]).
  destruct (raw_affinity_row _ _ _ _ _ _ _ _ Hnn Hraw Hi)
    as (neighbours' & row & Hn & Hrow & Hscatter).
  unfold get_row in Hn. rewrite Hneighbours in Hn. injection Hn as <-.
  pose proof (scatter_neighbours_length _ _ _ _ _ _ Hscatter) as Hlen.
  unfold zeros1 in Hlen. rewrite length_replicate in Hlen.
  destruct (scatter_neighbours_sum _ _ _ _ _ _ Hscatter) as (ds & Hds & Hget & Hsum).
  { unfold zeros1. by rewrite length_replicate. }
  { unfold zeros1. rewrite length_replicate. intros idx pos _ Hpos%np_index_lt.
    rewrite lookup_replicate_2 by done. by rewrite zero_0. }
  rewrite (nearest_prefix _ _ _ _ Hnearest Hget), Hds in Hsum.
  rewrite np_sum_zeros, Rplus_0_l in Hsum.
  assert (Hentry : ∀ pos x, row !! pos = Some x →
            get2 (normalize_rows raw) i pos = Ok (x / total)).
  { intros pos x Hx. unfold get2, get_row, normalize_rows. simpl.
    rewrite list_lookup_fmap, Hrow. simpl.
    rewrite list_lookup_fmap, Hx. simpl. by rewrite Hsum. }
  split.
  - intros t idx d pos Ht Hd Hpos. apply Hentry.
    assert (Hlater : NoDup (map (np_index (nrows features2)) neighbours)) by done.
    eapply (scatter_neighbours_lookup _ _ _ 0%nat); [exact Hscatter|exact Ht| | |].
    + unfold get2, get_row. rewrite Hnearest. simpl. by rewrite Hd.
    + unfold zeros1. by rewrite length_replicate.
    + unfold zeros1. rewrite length_replicate. intros t' idx' Hlt Ht' Hpos'.
      rewrite <- Hpos in Hpos'.
      assert (t = t'); [|lia].
      eapply NoDup_lookup; [exact Hnd| |].
      * by rewrite list_lookup_fmap, Ht.
      * rewrite list_lookup_fmap, Ht'. simpl. by rewrite Hpos'.
  - intros pos Hpos Hfree.
    replace 0 with (0 / total) by (unfold Rdiv; lra). apply Hentry.
    erewrite scatter_neighbours_keep; [|exact Hscatter|].
    + unfold zeros1. rewrite lookup_replicate_2 by done. by rewrite zero_0.
    + unfold zeros1. rewrite length_replicate. apply Forall_forall.
      intros idx Hidx. by apply Hfree.
Qed.
End weights.

Lemma Q2R_thousandth : Q2R 0.001%Q = 1 / 1000.
Proof. unfold Q2R. simpl. lra. Qed.

Lemma floor_distance_eq (distance : R) :
  floor_distance distance = Rmax distance (1 / 1000).
Proof.
  unfold floor_distance. simpl. rewrite Q2R_thousandth.
  destruct (Rlt_dec _ _); [rewrite Rmax_right|rewrite Rmax_left]; lra.
Qed.

Lemma affinity_element_eq (distance : R) :
  affinity_element distance
  = Rmax (1 / (Rmax distance (1 / 1000) * Rmax distance (1 / 1000))) (1 / 10000).
Proof.
  unfold affinity_element, affinity_divisor. rewrite floor_distance_eq.
  simpl. replace (Q2R 1.0%Q) with 1 by (unfold Q2R; simpl; lra).
  replace (Q2R 0.0001%Q) with (1 / 10000) by (unfold Q2R; simpl; lra).
  destruct (Rlt_dec _ _); symmetry; [apply Rmax_right|apply Rmax_left]; lra.
Qed.

Lemma affinity_element_floor (distance : R) :
  distance < 1 / 1000 → affinity_element distance = 1000000.
Proof.
  intros Hd. rewrite affinity_element_eq, (Rmax_right distance) by lra.
  replace (1 / (1 / 1000 * (1 / 1000))) with 1000000 by field.
  apply Rmax_left. lra.
Qed.


Lemma np_sum_const (l : list R) (c : R) :
  Forall (λ x, x = c) l → np_sum l = INR (length l) * c.
Proof.
  induction 1 as [|x l -> _ IH]; [rewrite np_sum_nil; simpl; lra|].
  rewrite np_sum_cons, IH. change (length (c :: l)) with (S (length l)).
  rewrite S_INR. lra.
Qed.

(** X10: in exact arithmetic, when the k neighbours of an element are all
    closer than the floor of 0.001 (and at different positions), each gets
    the weight 1/k. *)
Theorem wknn_affinity_uniform_below_floor nearest_neighbours
    (features1 features2 : ndarray R) (k : Z) distances neighbourIndices
    affinity i neighbours nearest :
  nearest_neighbours features1 features2 k = Ok (distances, neighbourIndices) →
  wknn_affinity nearest_neighbours features1 features2 k = Ok affinity →
  (i < nrows features1)%nat →
  rows neighbourIndices !! i = Some neighbours →
  rows distances !! i = Some nearest →
  length nearest = length neighbours →
  NoDup (map (np_index (nrows features2)) neighbours) →
  Forall (λ d, d < 1 / 1000) nearest →
  ∀ idx pos, idx ∈ neighbours → np_index (nrows features2) idx = Ok pos →
    get2 affinity i pos = Ok (1 / INR (length neighbours)).
Proof.
  intros Hnn Hrun Hi Hn Hd Hlen Hnd Hfloor idx pos [t Ht]%list_elem_of_lookup Hpos.
  destruct (wknn_affinity_row_weights _ _ _ _ _ _ _ Hnn Hrun _ _ _ Hi Hn Hd Hnd)
    as [Hw _].
  destruct (lookup_lt_is_Some_2 nearest t) as [d Hdt].
  { rewrite Hlen. by eapply lookup_lt_Some. }
  rewrite (Hw _ _ _ _ Ht Hdt Hpos). f_equal.
  rewrite <- Hlen, firstn_all.
  rewrite (np_sum_const _ 1000000).
  - rewrite length_map, affinity_element_floor.
    + assert (0 < INR (length nearest)).
      { apply lt_0_INR. apply lookup_lt_Some in Hdt. lia. }
      field. lra.
    + by apply (Forall_lookup_1 _ _ _ _ Hfloor Hdt).
  - apply Forall_fmap. eapply Forall_impl; [exact Hfloor|]. simpl.
    intros d'. apply affinity_element_floor.
Qed.

(** X11: in exact arithmetic the weight of a neighbour lies between 0.0001
    and 1000000, and a neighbour that is not closer has no larger
    weight. *)
Theorem affinity_element_range (distance distance' : R) :
  distance <= distance' →
  1 / 10000 <= affinity_element distance' <= affinity_element distance
  ∧ affinity_element distance <= 1000000.
Proof.
  intros Hle. rewrite !affinity_element_eq.
  assert (Hpos : ∀ d, 1 / 1000 <= Rmax d (1 / 1000)) by (intros; apply Rmax_r).
  pose proof (Hpos distance) as H1. pose proof (Hpos distance') as H2.
  assert (H12 : Rmax distance (1 / 1000) <= Rmax distance' (1 / 1000)).
  { apply Rmax_lub; [|apply Rmax_r].
    eapply Rle_trans; [exact Hle|apply Rmax_l]. }
  set (a := Rmax distance (1 / 1000)) in *.
  set (b := Rmax distance' (1 / 1000)) in *.
  assert (Hinv : 1 / (b * b) <= 1 / (a * a)).
  { unfold Rdiv. rewrite !Rmult_1_l. apply Rinv_le_contravar; nra. }
  assert (Hmax : 1 / (a * a) <= 1000000).
  { replace 1000000 with (/ (/ 1000 * / 1000)) by field.
    unfold Rdiv. rewrite Rmult_1_l. apply Rinv_le_contravar; nra. }
  repeat split.
  - apply Rmax_r.
  - apply Rmax_lub; [|apply Rmax_r]. eapply Rle_trans; [exact Hinv|apply Rmax_l].
  - apply Rmax_lub; lra.
Qed.

Lemma affinity_element_range_witness :
  0 <= 1
  ∧ 1 / 10000 <= affinity_element 1 <= affinity_element 0
  ∧ affinity_element 0 <= 1000000.
Proof.
  assert (H : 0 <= 1) by lra.
  split; [exact H|]. exact (affinity_element_range 0 1 H).
Defined.


Lemma wknn_affinity_uniform_below_floor_witness :
  ∃ affinity,
    wknn_affinity (fixed_oracle (NdArray 2 [[0; 0]]) near_indices)
      near_source near_target 2 = Ok affinity
    ∧ get2 affinity 0 1 = Ok (1 / INR 2).
Proof.
  eexists. split; [reflexivity|].
  refine (wknn_affinity_uniform_below_floor
            (fixed_oracle (NdArray 2 [[0; 0]]) near_indices)
            near_source near_target 2 (NdArray 2 [[0; 0]]) near_indices
            _ 0%nat [0; 1]%Z [0; 0] eq_refl eq_refl _ eq_refl eq_refl eq_refl _ _
            1%Z 1%nat _ eq_refl).
  - unfold nrows. simpl. lia.
  - vm_compute. apply NoDup_cons. split; [|apply NoDup_singleton].
    intros ?%list_elem_of_singleton. discriminate.
  - repeat constructor; lra.
  - do 2 constructor.
Defined.

(** ** [wknn_affinity] followed by [affinity_to_correspondences] *)

(** The product of a row that holds [x] at one position and 0 elsewhere
    with a column. *)
Lemma np_sum_zip_zeros (u v : list R) :
  Forall (λ x, x = 0) u → np_sum (zip_with Rmult u v) = 0.
Proof.
  intros Hu. revert v. induction Hu as [|x u -> _ IH]; intros [|y v]; simpl;
    rewrite ?np_sum_nil; try done.
  rewrite np_sum_cons, IH. lra.
Qed.

Lemma np_sum_zip_single (u v : list R) pos x y :
  u !! pos = Some x → v !! pos = Some y →
  (∀ j z, j ≠ pos → u !! j = Some z → z = 0) →
  np_sum (zip_with Rmult u v) = x * y.
Proof.
  revert v pos. induction u as [|a u IH]; intros [|b v] [|pos]; simpl; try done.
  - intros [= ->] [= ->] Hz. rewrite np_sum_cons, np_sum_zip_zeros; [lra|].
    apply Forall_lookup. intros j z Hj. apply (Hz (S j)); [lia|done].
  - intros Hx Hy Hz. rewrite np_sum_cons, (IH v pos); [| done | done |].
    + rewrite (Hz 0%nat a); [lra|lia|done].
    + intros j z Hj Hl. apply (Hz (S j)); [lia|done].
Qed.

Lemma tabulate1_at1 (row : list R) : tabulate1 (length row) (at1 row) = row.
Proof.
  apply list_eq. intros j. unfold tabulate1. rewrite list_lookup_fmap.
  destruct (decide (j < length row)%nat) as [Hj|Hj].
  - rewrite lookup_seq_lt by done. simpl. unfold at1.
    destruct (lookup_lt_is_Some_2 row j Hj) as [x Hx].
    rewrite Hx. f_equal. by apply nth_lookup_Some.
  - rewrite lookup_seq_ge by lia. simpl. symmetry. apply lookup_ge_None. lia.
Qed.

(** X12: in exact arithmetic, for an element with one neighbour (k = 1)
    the two routines together hand over the neighbour itself: the
    corresponding feature is the row of the neighbour in [features2], and
    the corresponding flag is the flag of the neighbour, rounded. *)
Theorem single_neighbour_correspondence nearest_neighbours
    (features1 features2 : ndarray R) (k : Z) distances neighbourIndices
    affinity (flags2 : list R) flagRoundingLimit correspondingFeatures
    correspondingFlags i idx pos :
  nearest_neighbours features1 features2 k = Ok (distances, neighbourIndices) →
  wknn_affinity nearest_neighbours features1 features2 k = Ok affinity →
  affinity_to_correspondences features2 flags2 affinity flagRoundingLimit
    = Ok (correspondingFeatures, correspondingFlags) →
  Forall (λ row, length row = ncols features2) (rows features2) →
  (i < nrows features1)%nat →
  rows neighbourIndices !! i = Some [idx] →
  np_index (nrows features2) idx = Ok pos →
  rows correspondingFeatures !! i = rows features2 !! pos
  ∧ correspondingFlags !! i = round_flag flagRoundingLimit <$> flags2 !! pos.
Proof.
  intros Hnn Hrun Hcorr Hwf Hi Hn Hpos. unfold wknn_affinity in Hrun.
  apply bind_Ok in Hrun as (raw & Hraw & [= <-]).
  destruct (raw_affinity_shape _ _ _ _ _ Hraw) as [_ Hcols].
  destruct (raw_affinity_row _ _ _ _ _ _ _ _ Hnn Hraw Hi)
    as (neighbours & row0 & Hn' & Hrow0 & Hscatter).
  unfold get_row in Hn'. rewrite Hn in Hn'. injection Hn' as <-.
  assert (Hlen : length (zeros1 (nrows features2) : list R) = nrows features2)
    by (unfold zeros1; apply length_replicate).
  simpl in Hscatter. rewrite Hlen, Hpos in Hscatter.
  apply bind_Ok in Hscatter as (d & _ & [= <-]).
  pose proof (np_index_lt _ _ _ Hpos) as Hlt.
  set (w := affinity_element d) in *.
  assert (Hw : 0 < w) by apply affinity_element_pos.
  assert (Hsum : np_sum (<[pos := w]> (zeros1 (nrows features2))) = w).
  { rewrite (np_sum_insert _ _ 0), np_sum_zeros; [lra|].
    unfold zeros1. rewrite lookup_replicate_2 by done. by rewrite zero_0. }
  set (arow := map (λ x, x / w) (<[pos := w]> (zeros1 (nrows features2)))).
  assert (Harow : rows (normalize_rows raw) !! i = Some arow).
  { unfold normalize_rows. simpl. rewrite list_lookup_fmap, Hrow0. simpl.
    by rewrite Hsum. }
  assert (Hone : arow !! pos = Some 1).
  { unfold arow. rewrite list_lookup_fmap, list_lookup_insert_eq.
    - simpl. f_equal. field. lra.
    - unfold zeros1. by rewrite length_replicate. }
  assert (Hzero : ∀ j z, j ≠ pos → arow !! j = Some z → z = 0).
  { intros j z Hj. unfold arow. rewrite list_lookup_fmap, list_lookup_insert_ne by done.
    unfold zeros1. intros Hz.
    destruct (replicate (nrows features2) zero !! j) as [x|] eqn:Hx; [|done].
    apply lookup_replicate_1 in Hx as [-> _]. injection Hz as <-.
    change (zero / w = 0). rewrite zero_0. unfold Rdiv. lra. }
  unfold affinity_to_correspondences, matmul, matvec in Hcorr.
  simpl in Hcorr. rewrite Hcols in Hcorr.
  destruct (decide (nrows features2 = nrows features2)); [|done].
  destruct (decide (nrows features2 = length flags2)) as [Hflags|]; [|done].
  simpl in Hcorr. injection Hcorr as <- <-. split.
  - simpl. rewrite list_lookup_fmap.
    change (map (λ r, map (λ x, x / np_sum r) r) (rows raw))
      with (rows (normalize_rows raw)).
    rewrite Harow. simpl.
    destruct (lookup_lt_is_Some_2 (rows features2) pos Hlt) as [frow Hfrow].
    rewrite Hfrow. f_equal.
    transitivity (tabulate1 (length frow) (at1 frow)); [|apply tabulate1_at1].
    rewrite (Forall_lookup_1 _ _ _ _ Hwf Hfrow).
    apply tabulate1_ext. intros c Hc.
    rewrite (np_sum_zip_single arow _ pos 1 (at1 frow c)); [lra|done| |done].
    unfold column. by rewrite list_lookup_fmap, Hfrow.
  - rewrite round_flags_map, 2!list_lookup_fmap.
    change (map (λ r, map (λ x, x / np_sum r) r) (rows raw))
      with (rows (normalize_rows raw)).
    rewrite Harow. simpl.
    destruct (lookup_lt_is_Some_2 flags2 pos) as [flag Hflag]; [lia|].
    rewrite Hflag. simpl. f_equal. f_equal.
    rewrite (np_sum_zip_single arow _ pos 1 flag); [lra|done|done|done].
Qed.

(** A sum weighted by weights that are not negative lies between the
    bounds of its terms, times the sum of the weights. *)
Lemma weighted_sum_bounds (lo hi : R) (u : list R) :
  ∀ v : list R,
    length u = length v →
    Forall (λ x, 0 <= x) u →
    Forall (λ x, lo <= x <= hi) v →
    lo * np_sum u <= np_sum (zip_with Rmult u v) <= hi * np_sum u.
Proof.
  induction u as [|a u IH]; intros [|b v]; simpl; try done.
  - intros _ _ _. rewrite np_sum_nil. lra.
  - intros [= Hlen] [Ha Hu]%Forall_cons [Hb Hv]%Forall_cons.
    rewrite !np_sum_cons. specialize (IH v Hlen Hu Hv). nra.
Qed.

(** X23: in exact arithmetic, for a row of the affinity whose entries are
    not negative and sum to 1, every component of the corresponding
    feature lies between the least and the largest value of that
    component among the target features: the correspondence is a convex
    combination of the targets. *)
Theorem correspondence_within_bounds (features2 : ndarray R) (flags2 : list R)
    affinity flagRoundingLimit correspondingFeatures correspondingFlags
    i row c lo hi :
  affinity_to_correspondences features2 flags2 affinity flagRoundingLimit
    = Ok (correspondingFeatures, correspondingFlags) →
  rows affinity !! i = Some row →
  length row = ncols affinity →
  Forall (λ x, 0 <= x) row →
  np_sum row = 1 →
  (c < ncols features2)%nat →
  Forall (λ feature, lo <= at1 feature c <= hi) (rows features2) →
  ∃ x, get2 correspondingFeatures i c = Ok x ∧ lo <= x <= hi.
Proof.
  intros Hrun Hrow Hlen Hnonneg Hsum Hc Hbounds.
  unfold affinity_to_correspondences, matmul, matvec in Hrun.
  destruct (decide (ncols affinity = nrows features2)) as [Hshape|]; [|done].
  destruct (decide (ncols affinity = length flags2)); [|done].
  simpl in Hrun. injection Hrun as <- _.
  unfold get2, get_row. simpl. rewrite list_lookup_fmap, Hrow. simpl.
  unfold tabulate1. rewrite list_lookup_fmap, lookup_seq_lt by done. simpl.
  eexists. split; [done|].
  pose proof (weighted_sum_bounds lo hi row (column features2 c)) as H.
  rewrite Hsum, !Rmult_1_r in H. apply H; [|done|].
  - unfold column. rewrite length_map. by rewrite Hlen, Hshape.
  - unfold column. by apply Forall_fmap.
Qed.

(** X24: in exact arithmetic, when every target is flagged valid (1.0)
    and the limit is below 1, an element whose row of the affinity sums
    to 1 is flagged valid; when every target is flagged invalid (0.0)
    and the limit is not negative, it is flagged invalid. *)
Theorem uniform_flags_are_kept (features2 : ndarray R) (flags2 : list R)
    affinity flagRoundingLimit correspondingFeatures correspondingFlags
    i row flag :
  affinity_to_correspondences features2 flags2 affinity flagRoundingLimit
    = Ok (correspondingFeatures, correspondingFlags) →
  rows affinity !! i = Some row →
  length row = ncols affinity →
  Forall (λ x, 0 <= x) row →
  np_sum row = 1 →
  Forall (λ x, x = flag) flags2 →
  (flag = 1 ∧ flagRoundingLimit < 1) ∨ (flag = 0 ∧ 0 <= flagRoundingLimit) →
  correspondingFlags !! i = Some flag.
Proof.
  intros Hrun Hrow Hlen Hnonneg Hsum Hflags Hcase.
  unfold affinity_to_correspondences, matmul, matvec in Hrun.
  destruct (decide (ncols affinity = nrows features2)); [|done].
  destruct (decide (ncols affinity = length flags2)) as [Hshape|]; [|done].
  simpl in Hrun. injection Hrun as _ <-.
  rewrite round_flags_map, !list_lookup_fmap, Hrow. simpl. f_equal.
  pose proof (weighted_sum_bounds flag flag row flags2) as H.
  rewrite Hsum, !Rmult_1_r in H.
  assert (Hblend : np_sum (zip_with Rmult row flags2) = flag).
  { apply Rle_antisym; apply H; try done; try lia.
    all: eapply Forall_impl; [exact Hflags|]; simpl; intros x ->; lra. }
  rewrite Hblend. unfold round_flag. simpl.
  destruct Hcase as [[-> Hlim]|[-> Hlim]]; destruct (Rlt_dec _ _);
    unfold Q2R; simpl; lra.
Qed.

(** ** The values [inlier_detection] leaves *)

(** The responsibility of the Gaussian, with the common factor of the two
    densities cancelled. *)
Lemma final_probability_eq sigmaa kappaa distance dotProduct :
  0 < sigmaa →
  final_probability sigmaa kappaa distance dotProduct
  = exp (- / 2 * (distance / sigmaa * (distance / sigmaa)))
    / (exp (- / 2 * (distance / sigmaa * (distance / sigmaa)))
       + exp (- / 2 * (kappaa * kappaa)))
    * (dotProduct / 2 + / 2).
Proof.
  intros Hs. unfold final_probability, gaussian_density, outlier_level, square.
  pose proof (gaussian_scale_pos _ Hs) as Hscale.
  set (c := gaussian_scale sigmaa) in *. simpl.
  replace (Q2R (-0.5)%Q) with (- / 2) by (unfold Q2R; simpl; lra).
  replace (Q2R 2.0%Q) with 2 by (unfold Q2R; simpl; lra).
  replace (Q2R 0.5%Q) with (/ 2) by (unfold Q2R; simpl; lra).
  replace (- / 2 * kappaa * kappaa) with (- / 2 * (kappaa * kappaa)) by ring.
  match goal with |- context [c * exp ?x / (c * exp ?x + c * exp ?y)] =>
    pose proof (exp_pos x); pose proof (exp_pos y);
    set (g := exp x) in *; set (l := exp y) in * end.
  field. split; nra.
Qed.

Lemma responsibility_range (g l : R) : 0 < g → 0 < l → 0 < g / (g + l) < 1.
Proof.
  intros Hg Hl. split.
  - apply Rdiv_lt_0_compat; lra.
  - apply Rmult_lt_reg_r with (g + l); [lra|].
    unfold Rdiv. rewrite Rmult_assoc, Rinv_l by lra. lra.
Qed.


Lemma final_probability_range sigmaa kappaa distance dotProduct :
  0 < sigmaa → -1 <= dotProduct <= 1 →
  0 <= final_probability sigmaa kappaa distance dotProduct <= 1.
Proof.
  intros Hs Hd. rewrite final_probability_eq by done.
  match goal with |- context [exp ?x / (exp ?x + exp ?y)] =>
    pose proof (responsibility_range _ _ (exp_pos x) (exp_pos y));
    set (r := exp x / (exp x + exp y)) in * end.
  split; nra.
Qed.


Lemma final_probability_cutoff sigmaa kappaa dotProduct :
  0 < sigmaa →
  final_probability sigmaa kappaa (kappaa * sigmaa) dotProduct
  = / 2 * (dotProduct / 2 + / 2).
Proof.
  intros Hs. rewrite final_probability_eq by done.
  replace (kappaa * sigmaa / sigmaa) with kappaa by (field; lra).
  pose proof (exp_pos (- / 2 * (kappaa * kappaa))).
  set (l := exp _) in *. f_equal. field. lra.
Qed.



(** X13: in exact arithmetic, when the deviation estimated is positive
    and the dot product of the two normals of an element lies in [-1, 1],
    the element ends with a value in [0, 1]. *)
Theorem inlier_probability_in_unit_interval features correspondingFeatures
    correspondingFlags kappaa (p p' : list R) sigmaa i
    feature correspondingFeature dotProduct :
  inlier_detection features correspondingFeatures correspondingFlags kappaa p
    = (Ok (), p') →
  estimated_sigma features correspondingFeatures correspondingFlags p
    = Ok sigmaa →
  0 < sigmaa →
  (i < nrows features)%nat →
  get_row features i = Ok feature →
  get_row correspondingFeatures i = Ok correspondingFeature →
  dot (slice_3_6 feature) (slice_3_6 correspondingFeature) = Ok dotProduct →
  -1 <= dotProduct <= 1 →
  ∃ x, p' !! i = Some x ∧ 0 <= x <= 1.
Proof.
  intros Hrun Hsigma Hpos Hi Hf Hcf Hdot Hd.
  destruct (inlier_detection_formula _ _ _ _ _ _ Hrun)
    as (sigmaa' & Hsigma' & _ & Hformula).
  rewrite Hsigma in Hsigma'. injection Hsigma' as <-.
  destruct (Hformula i Hi) as (d & f & cf & dp & _ & Hf' & Hcf' & Hdot' & ->).
  rewrite Hf in Hf'. injection Hf' as <-.
  rewrite Hcf in Hcf'. injection Hcf' as <-.
  rewrite Hdot in Hdot'. injection Hdot' as <-.
  eexists. split; [done|]. by apply final_probability_range.
Qed.


(** X15: in exact arithmetic, an element whose residual is exactly kappa
    times the deviation estimated ends with half the agreement of its
    normals: the cutoff is where inlier and outlier are equally likely. *)
Theorem cutoff_residual_gives_half features correspondingFeatures
    correspondingFlags kappaa (p p' : list R) sigmaa i agreement :
  inlier_detection features correspondingFeatures correspondingFlags kappaa p
    = (Ok (), p') →
  estimated_sigma features correspondingFeatures correspondingFlags p
    = Ok sigmaa →
  0 < sigmaa →
  (i < nrows features)%nat →
  residual features correspondingFeatures i = Ok (kappaa * sigmaa) →
  normal_agreement features correspondingFeatures i = Ok agreement →
  p' !! i = Some (/ 2 * agreement).
Proof.
  intros Hrun Hsigma Hpos Hi Hd Ha.
  destruct (inlier_detection_formula _ _ _ _ _ _ Hrun)
    as (sigmaa' & Hsigma' & _ & Hformula).
  rewrite Hsigma in Hsigma'. injection Hsigma' as <-.
  destruct (Hformula i Hi) as (d & f & cf & dp & Hd1 & Hf & Hcf & Hdot & ->).
  rewrite Hd in Hd1. injection Hd1 as <-.
  unfold normal_agreement in Ha. rewrite Hf, Hcf in Ha. simpl in Ha.
  rewrite Hdot in Ha. simpl in Ha. injection Ha as <-.
  rewrite final_probability_cutoff by done. f_equal.
  replace (Q2R 2.0%Q) with 2 by (unfold Q2R; simpl; lra).
  replace (Q2R 0.5%Q) with (/ 2) by (unfold Q2R; simpl; lra). done.
Qed.

Lemma norm_singleton (x : R) : 0 <= x → norm [x] = x.
Proof.
  intros Hx. unfold norm, np_sum. simpl.
  replace (Q2R 0 + x * x) with (Rsqr x) by (unfold Q2R, Rsqr; simpl; lra).
  by apply sqrt_Rsqr.
Qed.

Lemma pair_sigma_pos :
  0 < sigma_of (zero + 1 * norm [1 - 0] * norm [1 - 0]
                 + 1 * norm [2 - 0] * norm [2 - 0], zero + 1 + 1).
Proof.
  rewrite !norm_singleton by lra. unfold sigma_of. simpl.
  apply sqrt_lt_R0. unfold Q2R. simpl. lra.
Qed.

Lemma inlier_probability_in_unit_interval_witness :
  ∃ x, (inlier_detection pair_features pair_corresponding [] 3 [1; 1]).2 !! 0%nat
       = Some x
       ∧ 0 <= x <= 1.
Proof.
  refine (inlier_probability_in_unit_interval
            pair_features pair_corresponding [] 3 [1; 1] _ _ 0%nat _ _ _
            eq_refl eq_refl _ _ eq_refl eq_refl eq_refl _).
  - exact pair_sigma_pos.
  - unfold nrows. simpl. lia.
  - unfold slice_3_6. simpl. rewrite np_sum_nil. lra.
Defined.


Lemma lone_sigma_pos :
  0 < sigma_of (zero + 1 * norm [1 - 0] * norm [1 - 0], zero + 1).
Proof.
  rewrite !norm_singleton by lra. unfold sigma_of. simpl.
  apply sqrt_lt_R0. unfold Q2R. simpl. lra.
Qed.

Lemma cutoff_residual_gives_half_witness :
  ∃ agreement,
    normal_agreement (NdArray 1 [[0]]) (NdArray 1 [[1]]) 0 = Ok agreement
    ∧ (inlier_detection (NdArray 1 [[0]]) (NdArray 1 [[1]]) [] 1 [1]).2 !! 0%nat
      = Some (/ 2 * agreement).
Proof.
  eexists. split; [reflexivity|].
  refine (cutoff_residual_gives_half
            (NdArray 1 [[0]]) (NdArray 1 [[1]]) [] 1 [1] _ _ 0%nat _
            eq_refl eq_refl _ _ _ eq_refl).
  - exact lone_sigma_pos.
  - unfold nrows. simpl. lia.
  - change (Ok (norm [1 - 0]) = Ok (1 * sigma_of
        (zero + 1 * norm [1 - 0] * norm [1 - 0], zero + 1))).
    f_equal. rewrite !norm_singleton by lra. unfold sigma_of. simpl.
    replace ((Q2R 0 + 1 * (1 - 0) * (1 - 0)) / (Q2R 0 + 1)) with 1
      by (unfold Q2R; simpl; lra).
    rewrite sqrt_1. lra.
Defined.

(** ** The matrices of [rigid_transformation] *)

Ltac entries :=
  repeat match goal with
         | |- Ok _ = Ok _ => apply (f_equal Ok)
         | |- NdArray ?n _ = NdArray ?n _ => apply (f_equal (NdArray n))
         | |- _ :: _ = _ :: _ => apply (f_equal2 cons)
         | |- [] = [] => reflexivity
         end.

Ltac unfold_literals :=
  unfold np_sum, zero, one, square; simpl; unfold Q2R; simpl.

(** X16: in exact arithmetic the matrix made of a quaternion q has
    orthogonal columns of squared length |q|^4: its transpose times
    itself is |q|^4 times the identity, which is the identity for a unit
    quaternion. *)
Theorem rotation_of_orthogonal (q0 q1 q2 q3 : R) :
  ∃ rotMatTemp,
    rotation_of [q0; q1; q2; q3] = Ok rotMatTemp
    ∧ matmul (transpose rotMatTemp) rotMatTemp
      = Ok (scale2 (square (q0 * q0 + q1 * q1 + q2 * q2 + q3 * q3)) (identity 3)).
Proof.
  eexists. split; [reflexivity|].
  unfold matmul, transpose, scale2, map2d, identity, tabulate2, tabulate1,
    column, at2, at1. simpl.
  entries; unfold_literals; field.
Qed.

(** The loop over the eigenvalues keeps the first position that holds
    the largest absolute value passed. *)
Lemma dominant_spec (todo : list R) :
  ∀ (done : list R) maxVal idx,
    (∀ j x, done !! j = Some x →
            Rabs x <= maxVal ∧ ((j < idx)%nat → Rabs x < maxVal)) →
    (done = [] ∧ idx = 0%nat ∧ maxVal = 0
     ∨ ∃ y, done !! idx = Some y ∧ Rabs y = maxVal) →
    ∃ M,
      (∀ j x, (done ++ todo) !! j = Some x →
              Rabs x <= M
              ∧ ((j < dominant (length done) todo maxVal idx)%nat → Rabs x < M))
      ∧ (done ++ todo = []
         ∧ dominant (length done) todo maxVal idx = 0%nat
         ∨ ∃ y, (done ++ todo) !! dominant (length done) todo maxVal idx = Some y
                ∧ Rabs y = M).
Proof.
  induction todo as [|x todo IH]; intros done maxVal idx Hall Hidx; simpl.
  - rewrite app_nil_r. exists maxVal. split; [done|].
    destruct Hidx as [(-> & -> & _)|Hy]; [by left|by right].
  - replace (done ++ x :: todo) with ((done ++ [x]) ++ todo)
      by (by rewrite <- app_assoc).
    replace (S (length done)) with (length (done ++ [x]))
      by (rewrite length_app; simpl; lia).
    destruct (Rlt_dec maxVal (Rabs x)) as [Hlt|Hge]; apply IH.
    + intros j y [Hj|[-> [= <-]]]%lookup_snoc_Some.
      * destruct Hj as [Hlen Hj]. destruct (Hall _ _ Hj) as [Hle _].
        split; [lra|]. intros _. lra.
      * split; [lra|]. lia.
    + right. exists x. split; [|done]. apply lookup_snoc_Some. right. done.
    + intros j y [Hj|[-> [= <-]]]%lookup_snoc_Some.
      * destruct Hj as [Hlen Hj]. by apply Hall.
      * split; [lra|]. intros Hlt. exfalso.
        destruct Hidx as [(-> & -> & _)|(y & Hy & _)]; [simpl in Hlt; lia|].
        apply lookup_lt_Some in Hy. lia.
    + right. destruct Hidx as [(-> & -> & ->)|(y & Hy & Hmax)].
      * exists x. split; [done|]. pose proof (Rabs_pos x). lra.
      * exists y. split; [|done]. apply lookup_app_l_Some. done.
Qed.

(** X17: the eigenvalue kept is the first of those of largest absolute
    value: no eigenvalue exceeds it in absolute value, and those before it
    are smaller in absolute value.  The sign plays no part. *)
Theorem dominant_is_first_of_largest_magnitude (eigenValues : list R) :
  eigenValues ≠ [] →
  ∃ y, eigenValues !! dominant 0 eigenValues zero 0 = Some y
       ∧ ∀ j x, eigenValues !! j = Some x →
           Rabs x <= Rabs y
           ∧ ((j < dominant 0 eigenValues zero 0)%nat → Rabs x < Rabs y).
Proof.
  intros Hne.
  destruct (dominant_spec eigenValues [] zero 0%nat) as (M & Hall & Hm).
  - intros j x. by rewrite lookup_nil.
  - left. by rewrite zero_0.
  - simpl in *. destruct Hm as [[? _]|(y & Hy & <-)]; [done|]. by exists y.
Qed.

(** X18: in exact arithmetic the matrix applied to the vertices maps a
    vertex x to s R (x + t), for the scale s, the rotation R and the
    translation t it is made of: the translation is rotated and scaled
    with the vertex, not added after. *)
Theorem transformation_matrix_translates_first
    (s r00 r01 r02 r10 r11 r12 r20 r21 r22 t0 t1 t2 x0 x1 x2 : R) :
  ∃ transformationMatrix,
    transformation_matrix s
      (NdArray 3 [[r00; r01; r02]; [r10; r11; r12]; [r20; r21; r22]])
      [t0; t1; t2]
    = Ok transformationMatrix
    ∧ matvec transformationMatrix [x0; x1; x2; 1]
      = Ok [ s * (r00 * (x0 + t0) + r01 * (x1 + t1) + r02 * (x2 + t2));
             s * (r10 * (x0 + t0) + r11 * (x1 + t1) + r12 * (x2 + t2));
             s * (r20 * (x0 + t0) + r21 * (x1 + t1) + r22 * (x2 + t2));
             1 ].
Proof.
  eexists. split; [reflexivity|].
  unfold matvec, scale2, map2d, identity, tabulate2, tabulate1,
    column, at2, at1. simpl.
  entries; unfold_literals; field.
Qed.

(** X19: in exact arithmetic the 4 x 4 matrix whose eigenvectors are
    computed is symmetric and has trace 0, whatever the cross-variance
    matrix is. *)
Theorem quaternion_matrix_symmetric
    (c00 c01 c02 c10 c11 c12 c20 c21 c22 d0 d1 d2 : R) :
  ∃ Q,
    quaternion_matrix
      (NdArray 3 [[c00; c01; c02]; [c10; c11; c12]; [c20; c21; c22]])
      [d0; d1; d2]
    = Ok Q
    ∧ transpose Q = Q
    ∧ trace Q = 0.
Proof.
  eexists. split; [reflexivity|].
  unfold transpose, trace, scale2, map2d, identity, tabulate2, tabulate1,
    column, at2, at1, nrows. simpl.
  split; [entries; unfold_literals; try field|unfold_literals; field].
Qed.

(** ** Runs *)

Lemma single_neighbour_correspondence_witness :
  ∃ affinity correspondingFeatures correspondingFlags,
    wknn_affinity (fixed_oracle (NdArray 1 [[0]]) (NdArray 1 [[1%Z]]))
      near_source near_target 1 = Ok affinity
    ∧ affinity_to_correspondences near_target [1; 0] affinity (9 / 10)
      = Ok (correspondingFeatures, correspondingFlags)
    ∧ rows correspondingFeatures !! 0%nat = Some [1].
Proof.
  eexists _, _, _. split; [reflexivity|]. split; [reflexivity|].
  refine (proj1 (single_neighbour_correspondence
            (fixed_oracle (NdArray 1 [[0]]) (NdArray 1 [[1%Z]]))
            near_source near_target 1 (NdArray 1 [[0]]) (NdArray 1 [[1%Z]])
            _ [1; 0] (9 / 10) _ _ 0%nat 1%Z 1%nat
            eq_refl eq_refl eq_refl _ _ eq_refl eq_refl)).
  - repeat constructor.
  - unfold nrows. simpl. lia.
Defined.

Lemma dominant_is_first_of_largest_magnitude_witness :
  mixed_eigenvalues ≠ []
  ∧ ∃ y, mixed_eigenvalues !! dominant 0 mixed_eigenvalues zero 0 = Some y
         ∧ ∀ j x, mixed_eigenvalues !! j = Some x →
             Rabs x <= Rabs y
             ∧ ((j < dominant 0 mixed_eigenvalues zero 0)%nat → Rabs x < Rabs y).
Proof.
  assert (Hne : mixed_eigenvalues ≠ []) by discriminate.
  split; [exact Hne|].
  exact (dominant_is_first_of_largest_magnitude mixed_eigenvalues Hne).
Defined.

Lemma correspondence_within_bounds_witness :
  ∃ correspondingFeatures correspondingFlags x,
    affinity_to_correspondences near_target [1; 0]
      (NdArray 2 [[/ 2; / 2]]) (9 / 10)
    = Ok (correspondingFeatures, correspondingFlags)
    ∧ get2 correspondingFeatures 0 0 = Ok x
    ∧ 0 <= x <= 1.
Proof.
  eexists _, _.
  assert (Hsum : np_sum [/ 2; / 2] = 1).
  { unfold np_sum. simpl. unfold Q2R. simpl. lra. }
  destruct (correspondence_within_bounds near_target [1; 0]
              (NdArray 2 [[/ 2; / 2]]) (9 / 10) _ _ 0%nat [/ 2; / 2] 0%nat 0 1
              eq_refl eq_refl eq_refl) as (x & Hx & Hbounds);
    [repeat constructor; lra|exact Hsum|simpl; lia| |].
  - repeat constructor; unfold at1; simpl; lra.
  - exists x. split; [reflexivity|]. split; [exact Hx|exact Hbounds].
Defined.

Lemma uniform_flags_are_kept_witness :
  ∃ correspondingFeatures correspondingFlags,
    affinity_to_correspondences near_target [1; 1]
      (NdArray 2 [[/ 2; / 2]]) (9 / 10)
    = Ok (correspondingFeatures, correspondingFlags)
    ∧ correspondingFlags !! 0%nat = Some 1.
Proof.
  eexists _, _. split; [reflexivity|].
  assert (Hsum : np_sum [/ 2; / 2] = 1).
  { unfold np_sum. simpl. unfold Q2R. simpl. lra. }
  refine (uniform_flags_are_kept near_target [1; 1]
            (NdArray 2 [[/ 2; / 2]]) (9 / 10) _ _ 0%nat [/ 2; / 2] 1
            eq_refl eq_refl eq_refl _ Hsum _ _).
  - repeat constructor; lra.
  - repeat constructor.
  - left. split; [reflexivity|lra].
Defined.
End ExactMore.
